(** * Walk-forward analysis notebook (42_VectorbtWalkforwardAnalysis)

    A shallow embedding of the notebook's helper functions and of the
    table, grid and splitting primitives they call, with the properties
    of the walk-forward engine stated over them. *)

From Stdlib Require Import ZArith List Bool Lia Sorted Permutation.
From Stdlib Require Import Floats.SpecFloat.
Import ListNotations.
Open Scope Z_scope.

(** ** Scores

    A score (a Sharpe ratio) is a Python float, an IEEE 754 binary64
    value.  Only comparisons and the NaN test are performed on scores, so
    they are kept as [spec_float] and compared with [SFcompare]. *)

Module Score.

Definition score := spec_float.

Definition is_nan (x : score) : bool :=
  match x with S754_nan => true | _ => false end.

(** [gt a b] is Python's [a > b]: false as soon as one side is NaN. *)
Definition gt (a b : score) : bool := SFltb b a.
Definition lt (a b : score) : bool := SFltb a b.

(** The position of a non-NaN float on the extended line, as a triple
    ordered lexicographically: sign class, then exponent, then mantissa
    (both mirrored for negative numbers). *)
Definition rank (x : score) : Z * Z * Z :=
  match x with
  | S754_zero _ => (0, 0, 0)
  | S754_infinity true => (-2, 0, 0)
  | S754_infinity false => (2, 0, 0)
  | S754_nan => (0, 0, 0)
  | S754_finite false m e => (1, e, Zpos m)
  | S754_finite true m e => (-1, - e, Zneg m)
  end.

Definition lex3 (a b : Z * Z * Z) : comparison :=
  let '(a1, a2, a3) := a in
  let '(b1, b2, b3) := b in
  match a1 ?= b1 with
  | Eq => match a2 ?= b2 with Eq => a3 ?= b3 | c => c end
  | c => c
  end.

End Score.

(** ** Failures

    The notebook defines no exception of its own.  A failing table or
    indicator call raises one of Python's ([KeyError], [ValueError]); the
    splitter's failure on a series that is too short carries the name the
    specification gives it. *)

Inductive exn : Type :=
| KeyError
| ValueError
| InsufficientDataError.

Definition result (A : Type) : Type := (exn + A)%type.
Definition Ok {A : Type} (a : A) : result A := inr a.
Definition Raise {A : Type} (e : exn) : result A := inl e.

Definition bind {A B : Type} (r : result A) (k : A -> result B) : result B :=
  match r with
  | inl e => inl e
  | inr a => k a
  end.

Notation "x <- r ;; k" := (bind r (fun x => k))
  (at level 61, r at next level, right associativity).

(** ** Labelled series

    [in_sharpe] is a pandas Series whose index has the three levels
    [fast_window], [slow_window] and [split_idx].  It is kept as the list
    of its rows, in row order. *)

Module Pandas.
Import Score.

Record label : Type := mkLabel {
  fast_window : Z;
  slow_window : Z;
  split_idx : Z
}.

Definition label_eqb (a b : label) : bool :=
  (fast_window a =? fast_window b) && (slow_window a =? slow_window b)
  && (split_idx a =? split_idx b).

Definition Series : Type := list (label * score).

Definition index (s : Series) : list label := map fst s.
Definition values (s : Series) : list score := map snd s.

(** pandas' [groupby('split_idx')], as documented: the group keys are the
    distinct values of the level in ascending order ([sort=True]), and each
    group keeps its rows in the order of the series. *)
Fixpoint insert_key (k : Z) (ks : list Z) : list Z :=
  match ks with
  | [] => [k]
  | k' :: r =>
      if k <? k' then k :: ks
      else if k =? k' then ks
      else k' :: insert_key k r
  end.

Definition group_keys (s : Series) : list Z :=
  fold_right insert_key [] (map (fun r => split_idx (fst r)) s).

Definition group (s : Series) (k : Z) : Series :=
  filter (fun r => split_idx (fst r) =? k) s.

Definition groupby_split_idx (s : Series) : list (Z * Series) :=
  map (fun k => (k, group s k)) (group_keys s).

(** pandas' [idxmax] and [idxmin], as documented, return the label of the
    first occurrence of the extreme value, NaN excluded ([skipna=True]).
    One step of that scan over a group: NaN rows are skipped and the
    running best is replaced only by a strictly better row. *)
Definition arg_step (better : score -> score -> bool)
    (acc : option (label * score)) (row : label * score) : option (label * score) :=
  if is_nan (snd row) then acc
  else match acc with
       | None => Some row
       | Some (_, v) => if better (snd row) v then Some row else acc
       end.

Definition arg_scan (better : score -> score -> bool) (g : Series) : option (label * score) :=
  fold_left (arg_step better) g None.

(** [first_best better g l v]: the row [(l, v)] of [g] is not NaN, beats
    strictly every non-NaN row before it and is beaten by no row after it. *)
Definition first_best (better : score -> score -> bool) (g : Series)
    (l : label) (v : score) : Prop :=
  exists pre post,
    g = pre ++ (l, v) :: post /\ is_nan v = false /\
    (forall r, In r pre -> is_nan (snd r) = false -> better v (snd r) = true) /\
    (forall r, In r post -> is_nan (snd r) = false -> better (snd r) v = false).

(** What the scan has established after the rows [seen]: no running best
    while all of them are NaN, and otherwise the first best row of [seen]. *)
Definition scan_inv (better : score -> score -> bool) (seen : Series)
    (acc : option (label * score)) : Prop :=
  match acc with
  | None => forall r, In r seen -> is_nan (snd r) = true
  | Some (l, v) => first_best better seen l v
  end.

(** [idxmax] and [idxmin] of a group: the label of the first row holding
    the largest (smallest) non-NaN value; [None] stands for the NaN that
    pandas yields when all the values of the group are NaN (from pandas 3
    on the call raises [ValueError] there; either way [get_best_index]
    fails on such a group, see [getitem]). *)
Definition idxmax (g : Series) : option label := option_map fst (arg_scan gt g).
Definition idxmin (g : Series) : option label := option_map fst (arg_scan lt g).

Definition groupby_idxmax (s : Series) : list (Z * option label) :=
  map (fun kg => (fst kg, idxmax (snd kg))) (groupby_split_idx s).

Definition groupby_idxmin (s : Series) : list (Z * option label) :=
  map (fun kg => (fst kg, idxmin (snd kg))) (groupby_split_idx s).

(** The lookup of one label: the rows carrying it, [KeyError] when there
    is none. *)
Definition loc (s : Series) (l : label) : result Series :=
  match filter (fun r => label_eqb (fst r) l) s with
  | [] => Raise KeyError
  | rows => Ok rows
  end.

(** The lookup of a list of keys of which one at least is a label: each
    key yields the rows carrying that label, in the order of the keys; a
    key that is NaN or labels no row raises [KeyError]. *)
Fixpoint getitem_labels (s : Series) (keys : list (option label)) : result Series :=
  match keys with
  | [] => Ok []
  | None :: _ => Raise KeyError
  | Some l :: rest =>
      rows <- loc s l ;;
      more <- getitem_labels s rest ;;
      Ok (rows ++ more)
  end.

Definition isna (key : option label) : bool :=
  match key with None => true | Some _ => false end.

(** pandas' [s[keys]] for the keys the grouped [idxmax] / [idxmin] hands
    over.  Keys that are all NaN form a float array, not an array of
    labels, and the lookup raises [ValueError]; otherwise the keys are
    looked up as labels.  Which of [KeyError] and [ValueError] a NaN key
    ends in is a matter of the pandas release (from pandas 3 on the grouped
    [idxmax] itself raises [ValueError] on a group that is all NaN, before
    any lookup): the properties below rely on the failure only, not on its
    class. *)
Definition getitem (s : Series) (keys : list (option label)) : result Series :=
  match keys with
  | [] => Ok []
  | _ :: _ => if forallb isna keys then Raise ValueError else getitem_labels s keys
  end.

Inductive level_name : Type :=
| fast_window_level
| slow_window_level
| split_idx_level.

Definition get_level_values (idx : list label) (level : level_name) : list Z :=
  match level with
  | fast_window_level => map fast_window idx
  | slow_window_level => map slow_window idx
  | split_idx_level => map split_idx idx
  end.

End Pandas.

(** ** Best selection *)

Module BestSelector.
Import Score Pandas.

(** [get_best_index(performance, higher_better=True)] *)
Definition get_best_index (performance : Series) (higher_better : bool) : result (list label) :=
  if higher_better then
    best <- getitem performance (map snd (groupby_idxmax performance)) ;;
    Ok (index best)
  else
    best <- getitem performance (map snd (groupby_idxmin performance)) ;;
    Ok (index best).

(** [get_best_params(best_index, level_name)] *)
Definition get_best_params (best_index : list label) (level : level_name) : list Z :=
  get_level_values best_index level.

(** A score table is a series keyed by (pair, split): no label occurs twice. *)
Definition ScoreTable (s : Series) : Prop := NoDup (index s).

(** The split [k] of the table has a usable (non-NaN) score. *)
Definition valid_split (s : Series) (k : Z) : Prop :=
  exists r, In r s /\ split_idx (fst r) = k /\ is_nan (snd r) = false.

Definition valid_splitb (s : Series) (k : Z) : bool :=
  existsb (fun r => (split_idx (fst r) =? k) && negb (is_nan (snd r))) s.

Definition all_splits_valid (s : Series) : Prop :=
  forall r, In r s -> valid_split s (split_idx (fst r)).

Definition all_splits_validb (s : Series) : bool :=
  forallb (fun r => valid_splitb s (split_idx (fst r))) s.

(** The split [k] occurs in the table and all its scores are NaN. *)
Definition nan_split (s : Series) (k : Z) : Prop :=
  (exists r, In r s /\ split_idx (fst r) = k) /\
  (forall r, In r s -> split_idx (fst r) = k -> is_nan (snd r) = true).

Definition better_of (higher_better : bool) : score -> score -> bool :=
  if higher_better then gt else lt.

(** The label the grouped arg-extreme yields for split [k]. *)
Definition winner (better : score -> score -> bool) (s : Series) (k : Z) : option label :=
  option_map fst (arg_scan better (group s k)).

(** The row [(l, v)] is the first one, in the row order of the table, that
    holds the extreme score of its split: it is not NaN, every non-NaN row
    of the split above it is strictly worse, and no row of the split below
    it is better. *)
Definition first_best_in_split (better : score -> score -> bool) (s : Series)
    (l : label) (v : score) : Prop :=
  exists pre post,
    s = pre ++ (l, v) :: post /\ is_nan v = false /\
    (forall r, In r pre -> split_idx (fst r) = split_idx l ->
               is_nan (snd r) = false -> better v (snd r) = true) /\
    (forall r, In r post -> split_idx (fst r) = split_idx l ->
               is_nan (snd r) = false -> better (snd r) v = false).

Definition windows_of (l : label) : Z * Z := (fast_window l, slow_window l).

(** Within every split, the rows of the table follow the enumeration
    order [before] of the parameter pairs. *)
Definition rows_in_order (before : Z * Z -> Z * Z -> Prop) (s : Series) : Prop :=
  forall pre r post r',
    s = pre ++ r :: post -> In r' pre ->
    split_idx (fst r') = split_idx (fst r) ->
    before (windows_of (fst r')) (windows_of (fst r)).

End BestSelector.

(** ** Parameter grid *)

Module ParameterGrid.

(** [itertools.combinations(iterable, r)]: the [r]-length subsequences of
    the input, by position, in the order Python emits them. *)
Fixpoint combinations {A : Type} (r : nat) (l : list A) : list (list A) :=
  match r with
  | O => [[]]
  | S r' =>
      (fix choose (l : list A) : list (list A) :=
         match l with
         | [] => []
         | x :: t => map (cons x) (combinations r' t) ++ choose t
         end) l
  end.

(** [vbt.MA.run_combs(price, windows, r=2, short_names=["fast", "slow"])]
    runs the indicator once per combination; the windows of the two
    returned indicators, position by position, are the parameter pairs. *)
Definition run_combs_windows (windows : list Z) : list (Z * Z) :=
  flat_map (fun c => match c with
                     | [fast; slow] => [(fast, slow)]
                     | _ => []
                     end) (combinations 2 windows).

(** The same enumeration written directly: every element paired with each
    of the elements after it. *)
Fixpoint pairs (l : list Z) : list (Z * Z) :=
  match l with
  | [] => []
  | x :: t => map (pair x) t ++ pairs t
  end.

(** [windows = np.arange(10, 50)] *)
Definition arange (lo hi : Z) : list Z :=
  map (fun i => lo + Z.of_nat i) (seq 0 (Z.to_nat (hi - lo))).

Definition windows : list Z := arange 10 50.


(** Lexicographic order of (first, second). *)
Definition pair_lt (p q : Z * Z) : Prop :=
  fst p < fst q \/ (fst p = fst q /\ snd p < snd q).

End ParameterGrid.

(** ** Rolling splitter *)

Module RollingSplitter.
Import ParameterGrid.

Fixpoint sum_lens (lens : list Z) : Z :=
  match lens with
  | [] => 0
  | l :: r => l + sum_lens r
  end.

(** Modelled from the spec: the segments of a window (section 4.1) are
    consecutive index blocks of the given lengths, starting at [from]. *)
Fixpoint set_ranges (from : Z) (lens : list Z) : list (list Z) :=
  match lens with
  | [] => []
  | l :: r => arange from (from + l) :: set_ranges (from + l) r
  end.

(** Modelled from the spec: the division of one window into its segments
    (section 4.1, [segment_lens]); the notebook only passes [set_lens] and
    [left_to_right] to [rolling_split], whose body is not part of it.  The
    window covers the indices [start_idx .. end_idx].  The given lengths
    must be positive and sum to at most the length of the window; one more
    segment takes the remaining observations.  With [left_to_right=False],
    the value the notebook passes, the given lengths are resolved from the
    right end of the window: the remaining observations come first and the
    last segment, the out-of-sample one, has the last given length.  With
    [left_to_right=True] the remaining observations come last. *)
Definition split_range_into_sets (start_idx end_idx : Z) (set_lens : list Z)
    (left_to_right : bool) : result (list (list Z)) :=
  let range_len := end_idx - start_idx + 1 in
  match set_lens with
  | [] => Ok [arange start_idx (end_idx + 1)]
  | _ :: _ =>
      if existsb (fun set_len => set_len <=? 0) set_lens then Raise ValueError
      else if sum_lens set_lens <=? range_len then
        let new_set_lens :=
          if left_to_right
          then set_lens ++ [range_len - sum_lens set_lens]
          else (range_len - sum_lens set_lens) :: set_lens in
        Ok (set_ranges start_idx new_set_lens)
      else Raise ValueError
  end.

Fixpoint split_ranges_into_sets (ranges : list (Z * Z)) (set_lens : list Z)
    (left_to_right : bool) : result (list (list (list Z))) :=
  match ranges with
  | [] => Ok []
  | (start_idx, end_idx) :: rest =>
      sets <- split_range_into_sets start_idx end_idx set_lens left_to_right ;;
      more <- split_ranges_into_sets rest set_lens left_to_right ;;
      Ok (sets :: more)
  end.

(** Rounding of the fraction [num / den] ([den > 0]) to the nearest
    integer, halves going to the even neighbour. *)
Definition round_half_even (num den : Z) : Z :=
  let q := num / den in
  let r := num mod den in
  if 2 * r <? den then q
  else if den <? 2 * r then q + 1
  else if Z.even q then q else q + 1.

(** Modelled from the spec: a count of [n] windows (section 4.1,
    [count_or_stride]) is served by [n] positions spread evenly over
    [0 .. last], both ends included. *)
Definition spread (last n : Z) : list Z :=
  if n =? 1 then [0]
  else map (fun i => round_half_even (i * last) (n - 1)) (arange 0 n).

(** Modelled from the spec: the rolling-window splitter behind
    [rolling_split] (section 4.1), which the notebook calls but does not
    define.  Every window holds [window_len] consecutive observations.
    Without a count the windows start at every index that leaves room for a
    whole window; with a count [n], [n] of those starts are kept, spread
    evenly from the first to the last, and the splits are numbered in the
    order of their starts.  A series shorter than [window_len], or one on
    which fewer than [n] windows fit, is an [InsufficientDataError]: no
    truncated window is produced. *)
Definition rolling_split (total_len : Z) (n : option Z) (window_len : Z)
    (set_lens : list Z) (left_to_right : bool) : result (list (list (list Z))) :=
  if window_len <=? 0 then Raise ValueError
  else if total_len <? window_len then Raise InsufficientDataError
  else
    let start_idxs := arange 0 (total_len - window_len + 1) in
    let end_idxs := arange (window_len - 1) total_len in
    ranges <-
      match n with
      | None => Ok (combine start_idxs end_idxs)
      | Some n =>
          if n <=? 0 then Raise ValueError
          else if Z.of_nat (length start_idxs) <? n then Raise InsufficientDataError
          else
            let idxs := spread (Z.of_nat (length start_idxs) - 1) n in
            Ok (map (fun i => (nth (Z.to_nat i) start_idxs 0,
                               nth (Z.to_nat i) end_idxs 0)) idxs)
      end ;;
    split_ranges_into_sets ranges set_lens left_to_right.

(** Modelled from the spec: the splitter when [count_or_stride] is a
    stride between window starts (section 4.1), a mode [rolling_split] of
    the library does not offer.  Windows of [window_len] observations start
    every [stride] observations, as many as fit in the series.  The
    placement anchors the first window at the start of the series
    ([from_start], left-to-right) or the last window at its end, the
    observations left over being dropped at the other end.  In each window
    the last segment is the out-of-sample one.  A series shorter than
    [window_len] is an [InsufficientDataError]. *)
Definition window_starts (total_len stride window_len : Z) (from_start : bool) : list Z :=
  let count := (total_len - window_len) / stride + 1 in
  let dropped := (total_len - window_len) mod stride in
  map (fun i => (if from_start then 0 else dropped) + i * stride) (arange 0 count).

Definition split_by_stride (total_len stride window_len : Z) (set_lens : list Z)
    (from_start : bool) : result (list (list (list Z))) :=
  if window_len <=? 0 then Raise ValueError
  else if stride <=? 0 then Raise ValueError
  else if total_len <? window_len then Raise InsufficientDataError
  else
    let ranges :=
      map (fun start_idx => (start_idx, start_idx + window_len - 1))
          (window_starts total_len stride window_len from_start) in
    split_ranges_into_sets ranges set_lens false.

(** Modelled from the spec: non-overlapping placement (section 8) puts the
    windows side by side, each starting where the one before it ends: the
    stride is the window length. *)
Definition non_overlapping_split (total_len window_len : Z) (set_lens : list Z)
    (from_start : bool) : result (list (list (list Z))) :=
  split_by_stride total_len window_len window_len set_lens from_start.

(** The in-sample part of a split is every segment but the last, the
    out-of-sample part is the last segment. *)
Definition in_sample (sets : list (list Z)) : list Z := concat (removelast sets).
Definition out_sample (sets : list (list Z)) : list Z := last sets [].

(** The configurations the splitter accepts: a positive window no longer
    than the series, positive segment lengths summing to at most the
    window, and a count, if given, of at least one and at most the number
    of windows that fit. *)
Definition valid_configuration (total_len : Z) (n : option Z) (window_len : Z)
    (set_lens : list Z) : Prop :=
  0 < window_len <= total_len /\
  Forall (fun set_len => 0 < set_len) set_lens /\
  sum_lens set_lens <= window_len /\
  match n with
  | None => True
  | Some n => 1 <= n <= total_len - window_len + 1
  end.

(** The window starting at [start] is cut at [mid]: in-sample below,
    out-of-sample from [mid] on. *)
Definition window_split (start window_len : Z) (sets : list (list Z)) : Prop :=
  exists mid,
    start <= mid <= start + window_len /\
    in_sample sets = arange start mid /\
    out_sample sets = arange mid (start + window_len).

End RollingSplitter.

(** ** Walk-forward engine *)

Module WalkForward.
Import Score Pandas BestSelector ParameterGrid RollingSplitter.

(** A price series is the list of its observations in time order; a data
    frame of segments has one column per split, labelled by [split_idx]. *)
Definition PriceSeries : Type := list score.
Definition DataFrame : Type := list (Z * list score).

(** [obj.iloc[idxs]] for positions [0 <= i < len(obj)], the only ones it
    is used with (elsewhere pandas counts from the end or raises). *)
Definition iloc (price : PriceSeries) (idxs : list Z) : list score :=
  map (fun i => nth (Z.to_nat i) price S754_nan) idxs.

Fixpoint enumerate_from {A : Type} (k : Z) (l : list A) : list (Z * A) :=
  match l with
  | [] => []
  | x :: r => (k, x) :: enumerate_from (k + 1) r
  end.

(** Modelled from the spec: what [rolling_split] hands back for the [j]-th
    segment (sections 2 and 4.5), a frame with one column per split, in
    split order, holding the observations of the series at the indices of
    that segment. *)
Definition set_frame (price : PriceSeries) (splits : list (list (list Z))) (j : nat)
    : DataFrame :=
  map (fun ks => (fst ks, iloc price (nth j (snd ks) []))) (enumerate_from 0 splits).

(** [(in_price, in_indexes), (out_price, out_indexes) = price.vbt.rolling_split(...)]:
    the unpacking needs exactly two segments per split. *)
Definition in_out_prices (price : PriceSeries) (n : option Z) (window_len : Z)
    (set_lens : list Z) (left_to_right : bool) : result (DataFrame * DataFrame) :=
  splits <- rolling_split (Z.of_nat (length price)) n window_len set_lens left_to_right ;;
  if forallb (fun sets => (length sets =? 2)%nat) splits
  then Ok (set_frame price splits 0, set_frame price splits 1)
  else Raise ValueError.

Section Simulator.

(** Modelled from the spec: the simulator capability (section 6,
    [SignalSimulator]) is a pure function of one segment and one pair of
    windows.  The notebook realises it with vectorbt's indicator and
    portfolio calls, which are not part of it and take a whole frame;
    following that contract they stand here for their work on one column:
    the moving average of a column for a window, the two crossing signals,
    and the Sharpe ratio of the portfolio built from a column and its entry
    and exit signals (the keyword arguments are fixed).  That a column of
    a frame is treated as it would be alone is part of the contract, not
    something derived from the library. *)
Variable MA_run : list score -> Z -> list score.
Variable ma_crossed_above : list score -> list score -> list bool.
Variable ma_crossed_below : list score -> list score -> list bool.
Variable from_signals_sharpe_ratio : list score -> list bool -> list bool -> score.

(** The four steps shared by [simulate_all_params] and
    [simulate_best_params], on one column and one pair of windows. *)
Definition crossover_sharpe (arg : list score * (Z * Z)) : score :=
  let '(column, (fast, slow)) := arg in
  let fast_ma := MA_run column fast in
  let slow_ma := MA_run column slow in
  let entries := ma_crossed_above fast_ma slow_ma in
  let exits := ma_crossed_below fast_ma slow_ma in
  from_signals_sharpe_ratio column entries exits.

(** [simulate_all_params(price, windows, **kwargs)]: every combination of
    two windows on every column; the rows of the result run through the
    combinations in their order and, for each, through the columns.  This
    is the table the function returns for two candidate windows or more;
    with fewer, [run_combs] hands back no indicator, the unpacking into
    [fast_ma, slow_ma] raises [ValueError] and no table is returned (the
    table is empty here). *)
Definition simulate_all_params (price : DataFrame) (windows : list Z) : Series :=
  flat_map (fun fs =>
              map (fun kc => (mkLabel (fst fs) (snd fs) (fst kc),
                              crossover_sharpe (snd kc, fs))) price)
           (run_combs_windows windows).

(** vectorbt's broadcasting of a parameter array over the [to_n] columns
    of the frame: an array of that length is taken as it is, a single
    value is repeated for every column, anything else is a [ValueError]. *)
Definition broadcast_params (params : list Z) (to_n : nat) : result (list Z) :=
  if (length params =? to_n)%nat then Ok params
  else match params with
       | [param] => Ok (repeat param to_n)
       | _ => Raise ValueError
       end.

(** The simulator invocations of [simulate_best_params]: with
    [per_column=True] the [i]-th window of each array, once broadcast,
    goes with the [i]-th column, and with nothing else. *)
Definition per_column (price : DataFrame) (fasts slows : list Z)
    : result (list (Z * (list score * (Z * Z)))) :=
  fasts <- broadcast_params fasts (length price) ;;
  slows <- broadcast_params slows (length price) ;;
  Ok (map (fun job => (fst (fst job), (snd (fst job), snd job)))
          (combine price (combine fasts slows))).

(** [simulate_best_params(price, best_fast_windows, best_slow_windows, **kwargs)].
    The rows of the result are labelled by the two windows and the column;
    [MA.run] names both window levels [ma_window], and they are kept in
    the first two components of the label. *)
Definition simulate_best_params (price : DataFrame)
    (best_fast_windows best_slow_windows : list Z) : result Series :=
  calls <- per_column price best_fast_windows best_slow_windows ;;
  Ok (map (fun call =>
             let '(k, (column, (fast, slow))) := call in
             (mkLabel fast slow k, crossover_sharpe (column, (fast, slow)))) calls).

(** The cells from the split to the two score vectors. *)
Record vectors : Type := mkVectors {
  in_sample_best : list score;
  out_sample_test : list score
}.

Definition walk_forward (price : PriceSeries) (n : option Z) (window_len : Z)
    (set_lens : list Z) (windows : list Z) : result vectors :=
  io <- in_out_prices price n window_len set_lens false ;;
  let '(in_price, out_price) := io in
  let in_sharpe := simulate_all_params in_price windows in
  in_best_index <- get_best_index in_sharpe true ;;
  let in_best_fast_windows := get_best_params in_best_index fast_window_level in
  let in_best_slow_windows := get_best_params in_best_index slow_window_level in
  out_test_sharpe <-
    simulate_best_params out_price in_best_fast_windows in_best_slow_windows ;;
  best_rows <- getitem in_sharpe (map Some in_best_index) ;;
  Ok (mkVectors (values best_rows) (values out_test_sharpe)).

End Simulator.

End WalkForward.

(** ** Significance test *)

Module Significance.
Import Score.

Inductive alternative : Type :=
| two_sided
| less
| greater.

(** The literal [0.05]: the binary64 number nearest to it,
    [7205759403792794 * 2^-57]. *)
Definition threshold : score := S754_finite false 7205759403792794 (-57).

Record comparison_result : Type := mkComparison {
  statistic : score;
  p_value : score;
  decision : bool
}.

Section Test.

(** [scipy.stats.ttest_ind(a, b, alternative)]: the alternative ["greater"]
    is that the mean of [a] is greater than the mean of [b].  It returns a
    statistic and a p-value for samples of any sizes. *)
Variable ttest_ind : list score -> list score -> alternative -> score * score.

(** The last cells of the notebook:
    [t, p = stats.ttest_ind(a=out_sample_test, b=in_sample_best, alternative="greater")]
    and [p > 0.05]. *)
Definition significance (in_sample_best out_sample_test : list score)
    : result comparison_result :=
  let '(t, p) := ttest_ind out_sample_test in_sample_best greater in
  Ok (mkComparison t p (gt p threshold)).

End Test.

End Significance.

(** ** Sample tables *)

Module Scenarios.
Import Score Pandas.

(** The binary64 numbers 0.5, 1.0 and 2.0. *)
Definition half : score := S754_finite false 4503599627370496 (-53).
Definition one : score := S754_finite false 4503599627370496 (-52).
Definition two : score := S754_finite false 4503599627370496 (-51).

(** Two splits and the grid of [10; 20; 30], rows as [simulate_all_params]
    lays them out; the first pair has no score on split 0 and two pairs
    tie on split 1. *)
Definition sharpe_two_splits : Series :=
  [ (mkLabel 10 20 0, S754_nan); (mkLabel 10 20 1, half);
    (mkLabel 10 30 0, one);      (mkLabel 10 30 1, two);
    (mkLabel 20 30 0, two);      (mkLabel 20 30 1, two) ].

(** Split 0 has a score, split 1 has none. *)
Definition sharpe_nan_split : Series :=
  [ (mkLabel 10 20 0, one); (mkLabel 10 20 1, S754_nan) ].

(** Two splits, two pairs, four different scores. *)
Definition sharpe_nan_free : Series :=
  [ (mkLabel 10 20 0, half); (mkLabel 10 20 1, two);
    (mkLabel 10 30 0, one);  (mkLabel 10 30 1, half) ].

(** One split, two pairs with the same score, the later pair of the grid
    on the first row. *)
Definition sharpe_tie_reordered : Series :=
  [ (mkLabel 20 30 0, one); (mkLabel 10 20 0, one) ].

(** [index] and [sr]: ten consecutive days from 2020-01-01 (as day
    numbers) carrying the values 0 to 9. *)
Definition index : list Z := map (fun i => 737425 + i) (ParameterGrid.arange 0 10).
Definition sr : list (Z * Z) :=
  combine index (ParameterGrid.arange 0 (Z.of_nat (length index))).

(** A ten-point price series, its two side-by-side windows, and a pair
    selected for each. *)
Definition demo_price : list score :=
  [one; two; one; half; one; two; two; one; half; two].

Definition demo_splits : list (list (list Z)) :=
  [ [[0; 1; 2; 3]; [4]]; [[5; 6; 7; 8]; [9]] ].

Definition demo_best_index : list label := [mkLabel 10 20 0; mkLabel 10 30 1].

(** The same series with its first observation missing. *)
Definition demo_price_gap : list score :=
  [S754_nan; two; one; half; one; two; two; one; half; two].

(** Stand-ins for the indicator and portfolio calls: the average is the
    column itself, no crossing is signalled, and the score of a column is
    its first observation. *)
Definition stub_MA_run (column : list score) (_ : Z) : list score := column.
Definition stub_crossed (_ _ : list score) : list bool := [].
Definition stub_sharpe (column : list score) (_ _ : list bool) : score :=
  hd S754_nan column.

End Scenarios.

(** ** Further cells and table operations *)

Module Cells.
Import Score Pandas BestSelector.

(** [in_best_window_pairs = np.array(list(zip(in_best_fast_windows,
    in_best_slow_windows)))] *)
Definition in_best_window_pairs (in_best_index : list label) : list (Z * Z) :=
  combine (get_best_params in_best_index fast_window_level)
          (get_best_params in_best_index slow_window_level).

(** pandas' [s.dropna()]: the rows whose value is not NaN, in their order. *)
Definition dropna (s : Series) : Series :=
  filter (fun r => negb (is_nan (snd r))) s.

(** [-s]: the same labels, every value negated. *)
Definition neg_row (r : label * score) : label * score := (fst r, SFopp (snd r)).
Definition neg (s : Series) : Series := map neg_row s.

(** No two differently labelled rows of one split hold equal scores. *)
Definition no_ties (s : Series) : Prop :=
  forall l v l' v',
    In (l, v) s -> In (l', v') s -> split_idx l = split_idx l' ->
    l <> l' -> SFeqb v v' = false.

End Cells.

(** * Properties *)

(** ** The order of scores *)

Module ScoreFacts.
Import Score.

Lemma SFcompare_rank (a b : score) :
  is_nan a = false -> is_nan b = false ->
  SFcompare a b = Some (lex3 (rank a) (rank b)).
Proof.
  intros Ha Hb.
  destruct a as [sa|sa| |sa ma ea], b as [sb|sb| |sb mb eb];
    try discriminate; try destruct sa; try destruct sb; try reflexivity.
  (* two negative finite numbers: the order of exponents and mantissas flips *)
  cbn [SFcompare rank lex3]. f_equal.
  change ((-1 ?= -1)) with Eq. cbv beta iota.
  rewrite Z.compare_opp, (Z.compare_antisym ea eb).
  destruct (ea ?= eb); cbn; reflexivity.
Qed.

Lemma lex3_lt_trans a b c :
  lex3 a b <> Gt -> lex3 b c = Lt -> lex3 a c = Lt.
Proof.
  destruct a as [[a1 a2] a3], b as [[b1 b2] b3], c as [[c1 c2] c3].
  unfold lex3.
  destruct (Z.compare_spec a1 b1), (Z.compare_spec a2 b2), (Z.compare_spec a3 b3),
    (Z.compare_spec b1 c1), (Z.compare_spec b2 c2), (Z.compare_spec b3 c3);
    intros Hab Hbc; try congruence;
    destruct (Z.compare_spec a1 c1), (Z.compare_spec a2 c2), (Z.compare_spec a3 c3);
    try reflexivity; try lia.
Qed.

Lemma lex3_antisym a b : lex3 a b = Lt -> lex3 b a = Gt.
Proof.
  destruct a as [[a1 a2] a3], b as [[b1 b2] b3].
  unfold lex3.
  destruct (Z.compare_spec a1 b1), (Z.compare_spec a2 b2), (Z.compare_spec a3 b3);
    intros Hab; try congruence;
    destruct (Z.compare_spec b1 a1), (Z.compare_spec b2 a2), (Z.compare_spec b3 a3);
    try reflexivity; try lia.
Qed.

(** A comparison with NaN never holds. *)
Lemma gt_not_nan a b : gt a b = true -> is_nan a = false /\ is_nan b = false.
Proof.
  unfold gt, SFltb. destruct a, b; cbn; try discriminate; auto.
Qed.

Lemma gt_asym a b : gt a b = true -> gt b a = false.
Proof.
  intros H. destruct (gt_not_nan _ _ H) as [Ha Hb].
  unfold gt, SFltb in *.
  rewrite (SFcompare_rank b a Hb Ha) in H.
  rewrite (SFcompare_rank a b Ha Hb).
  destruct (lex3 (rank b) (rank a)) eqn:E; try discriminate.
  now rewrite (lex3_antisym _ _ E).
Qed.

(** [a <= v < x] gives [a < x] on non-NaN scores. *)
Lemma gt_le_trans a v x :
  is_nan a = false -> gt a v = false -> gt x v = true -> gt x a = true.
Proof.
  intros Ha Hav Hxv. destruct (gt_not_nan _ _ Hxv) as [Hx Hv].
  unfold gt, SFltb in *.
  rewrite (SFcompare_rank v a Hv Ha) in Hav.
  rewrite (SFcompare_rank v x Hv Hx) in Hxv.
  rewrite (SFcompare_rank a x Ha Hx).
  destruct (lex3 (rank v) (rank x)) eqn:E; try discriminate.
  rewrite (lex3_lt_trans (rank a) (rank v) (rank x)); trivial.
  intros G.
  destruct (lex3 (rank v) (rank a)) eqn:E2; try discriminate.
  - (* v = a in rank: compare a v is Eq, not Gt *)
    clear - E2 G.
    destruct (rank a) as [[a1 a2] a3], (rank v) as [[b1 b2] b3]. unfold lex3 in *.
    destruct (Z.compare_spec b1 a1), (Z.compare_spec b2 a2), (Z.compare_spec b3 a3);
      try discriminate;
      destruct (Z.compare_spec a1 b1), (Z.compare_spec a2 b2), (Z.compare_spec a3 b3);
      try discriminate; lia.
  - clear - E2 G.
    destruct (rank a) as [[a1 a2] a3], (rank v) as [[b1 b2] b3]. unfold lex3 in *.
    destruct (Z.compare_spec b1 a1), (Z.compare_spec b2 a2), (Z.compare_spec b3 a3);
      try discriminate;
      destruct (Z.compare_spec a1 b1), (Z.compare_spec a2 b2), (Z.compare_spec a3 b3);
      try discriminate; lia.
Qed.


(** [x < v <= a] gives [x < a] on non-NaN scores. *)
Lemma lt_le_trans a v x :
  is_nan a = false -> lt a v = false -> lt x v = true -> lt x a = true.
Proof.
  intros Ha Hav Hxv.
  assert (Hx : is_nan x = false /\ is_nan v = false).
  { destruct (gt_not_nan v x Hxv); auto. }
  destruct Hx as [Hx Hv].
  unfold lt, SFltb in *.
  rewrite (SFcompare_rank a v Ha Hv) in Hav.
  rewrite (SFcompare_rank x v Hx Hv) in Hxv.
  rewrite (SFcompare_rank x a Hx Ha).
  destruct (lex3 (rank x) (rank v)) eqn:E; try discriminate.
  destruct (rank a) as [[a1 a2] a3], (rank v) as [[b1 b2] b3], (rank x) as [[c1 c2] c3].
  unfold lex3 in *.
  destruct (Z.compare_spec a1 b1), (Z.compare_spec a2 b2), (Z.compare_spec a3 b3);
    try discriminate;
    destruct (Z.compare_spec c1 b1), (Z.compare_spec c2 b2), (Z.compare_spec c3 b3);
    try discriminate;
    destruct (Z.compare_spec c1 a1), (Z.compare_spec c2 a2), (Z.compare_spec c3 a3);
    try reflexivity; lia.
Qed.

Lemma lt_asym a b : lt a b = true -> lt b a = false.
Proof. exact (gt_asym b a). Qed.

Lemma lex3_opp a b : lex3 a b = CompOpp (lex3 b a).
Proof.
  destruct a as [[a1 a2] a3], b as [[b1 b2] b3]. unfold lex3.
  rewrite (Z.compare_antisym b1 a1), (Z.compare_antisym b2 a2), (Z.compare_antisym b3 a3).
  destruct (b1 ?= a1), (b2 ?= a2), (b3 ?= a3); reflexivity.
Qed.

(** Swapping the sides of a comparison mirrors its outcome; with a NaN on
    either side there is none. *)
Lemma SFcompare_swap a b : SFcompare a b = option_map CompOpp (SFcompare b a).
Proof.
  destruct (is_nan a) eqn:Ha.
  { destruct a; try discriminate. destruct b; reflexivity. }
  destruct (is_nan b) eqn:Hb.
  { destruct b; try discriminate. destruct a; reflexivity. }
  rewrite (SFcompare_rank a b Ha Hb), (SFcompare_rank b a Hb Ha). cbn.
  now rewrite lex3_opp.
Qed.

Lemma SFcompare_none a b : SFcompare a b = None -> is_nan a = true \/ is_nan b = true.
Proof.
  destruct (is_nan a) eqn:Ha; [auto|]. destruct (is_nan b) eqn:Hb; [auto|].
  rewrite (SFcompare_rank a b Ha Hb). discriminate.
Qed.

End ScoreFacts.

(** ** The arg-extreme scan *)

Module ScanFacts.
Import Score ScoreFacts Pandas BestSelector.

Section Scan.

Variable better : score -> score -> bool.
Hypothesis better_asym : forall a b, better a b = true -> better b a = false.
Hypothesis better_trans : forall a v x,
  is_nan a = false -> better a v = false -> better x v = true -> better x a = true.

Lemma arg_step_inv seen acc row :
  scan_inv better seen acc -> scan_inv better (seen ++ [row]) (arg_step better acc row).
Proof.
  intros Hinv. unfold arg_step.
  destruct (is_nan (snd row)) eqn:Hnan.
  - destruct acc as [[l v]|]; cbn in *.
    + destruct Hinv as (pre & post & -> & Hv & Hpre & Hpost).
      exists pre, (post ++ [row]). rewrite <- app_assoc.
      refine (conj eq_refl (conj Hv (conj Hpre _))).
      intros r Hr Hr'. apply in_app_or in Hr as [Hr|[<-|[]]]; auto. congruence.
    + intros r Hr. apply in_app_or in Hr as [Hr|[<-|[]]]; auto.
  - destruct acc as [[l v]|]; cbn in *.
    + destruct Hinv as (pre & post & -> & Hv & Hpre & Hpost).
      destruct (better (snd row) v) eqn:Hb.
      * destruct row as [l' x]. cbn in *.
        exists (pre ++ (l, v) :: post), [].
        refine (conj eq_refl (conj Hnan (conj _ _))); [|intros r []].
        intros r Hr Hr'. apply in_app_or in Hr as [Hr|[<-|Hr]]; cbn; auto.
        -- apply better_trans with v; auto.
        -- apply better_trans with v; auto.
      * exists pre, (post ++ [row]). rewrite <- app_assoc.
        refine (conj eq_refl (conj Hv (conj Hpre _))).
        intros r Hr Hr'. apply in_app_or in Hr as [Hr|[<-|[]]]; auto.
    + destruct row as [l' x]. cbn in *.
      exists seen, [].
      refine (conj eq_refl (conj Hnan (conj _ _))); [|intros r []].
      intros r Hr Hr'. rewrite (Hinv r Hr) in Hr'. discriminate.
Qed.

Lemma fold_arg_step_inv g : forall seen acc,
  scan_inv better seen acc -> scan_inv better (seen ++ g) (fold_left (arg_step better) g acc).
Proof.
  induction g as [|row g IH]; intros seen acc Hinv; cbn.
  - now rewrite app_nil_r.
  - replace (seen ++ row :: g) with ((seen ++ [row]) ++ g)
      by (rewrite <- app_assoc; reflexivity).
    apply IH, arg_step_inv, Hinv.
Qed.

Lemma arg_scan_inv g : scan_inv better g (arg_scan better g).
Proof.
  apply (fold_arg_step_inv g [] None). intros r [].
Qed.

(** A group with a non-NaN row has a winner. *)
Lemma arg_scan_some g :
  (exists r, In r g /\ is_nan (snd r) = false) ->
  exists l v, arg_scan better g = Some (l, v) /\ first_best better g l v.
Proof.
  intros (r & Hr & Hnan). pose proof (arg_scan_inv g) as Hinv.
  destruct (arg_scan better g) as [[l v]|]; cbn in Hinv.
  - eauto.
  - rewrite (Hinv r Hr) in Hnan. discriminate.
Qed.

(** A group of NaN rows has none. *)
Lemma arg_scan_none g :
  (forall r, In r g -> is_nan (snd r) = true) -> arg_scan better g = None.
Proof.
  intros Hall. pose proof (arg_scan_inv g) as Hinv.
  destruct (arg_scan better g) as [[l v]|]; cbn in Hinv; trivial.
  destruct Hinv as (pre & post & Hg & Hv & _).
  specialize (Hall (l, v)). rewrite Hg in Hall. cbn in Hall.
  rewrite Hall in Hv; [discriminate|]. apply in_elt.
Qed.

End Scan.

Lemma better_of_asym hb a b : better_of hb a b = true -> better_of hb b a = false.
Proof. destruct hb; [apply gt_asym | apply lt_asym]. Qed.

Lemma better_of_trans hb a v x :
  is_nan a = false -> better_of hb a v = false -> better_of hb x v = true ->
  better_of hb x a = true.
Proof. destruct hb; [apply gt_le_trans | apply lt_le_trans]. Qed.

End ScanFacts.

(** ** Grouping and label lookup *)

Module TableFacts.
Import Score Pandas.

Lemma bind_Ok {A B : Type} (a : A) (k : A -> result B) : bind (Ok a) k = k a.
Proof. reflexivity. Qed.

Lemma label_eqb_eq a b : label_eqb a b = true <-> a = b.
Proof.
  unfold label_eqb. rewrite !andb_true_iff, !Z.eqb_eq.
  destruct a, b; cbn. split.
  - intros [[-> ->] ->]. reflexivity.
  - intros E. injection E as -> -> ->. auto.
Qed.

Lemma insert_key_In k ks x : In x (insert_key k ks) <-> x = k \/ In x ks.
Proof.
  induction ks as [|k' r IH]; cbn.
  - intuition.
  - destruct (k <? k') eqn:E1; [cbn; intuition|].
    destruct (k =? k') eqn:E2.
    + apply Z.eqb_eq in E2. subst. cbn. intuition.
    + cbn. rewrite IH. intuition.
Qed.

Lemma insert_key_sorted k ks :
  StronglySorted Z.lt ks -> StronglySorted Z.lt (insert_key k ks).
Proof.
  induction 1 as [|k' r Hr IH Hall]; cbn.
  - constructor; constructor.
  - destruct (k <? k') eqn:E1.
    + apply Z.ltb_lt in E1. constructor.
      * constructor; assumption.
      * constructor; [assumption|].
        eapply Forall_impl; [|exact Hall]. cbn. intros; lia.
    + destruct (k =? k') eqn:E2.
      * constructor; assumption.
      * apply Z.ltb_ge in E1. apply Z.eqb_neq in E2.
        constructor; [assumption|].
        apply Forall_forall. intros x Hx.
        apply insert_key_In in Hx as [->|Hx]; [lia|].
        rewrite Forall_forall in Hall. auto.
Qed.

Lemma group_keys_In s k :
  In k (group_keys s) <-> exists r, In r s /\ split_idx (fst r) = k.
Proof.
  unfold group_keys. induction s as [|r s IH]; cbn.
  - split; [intros []|intros (r & [] & _)].
  - rewrite insert_key_In, IH. split.
    + intros [->|(r' & Hr' & E)]; eauto.
    + intros (r' & [<-|Hr'] & E); eauto.
Qed.

Lemma group_keys_sorted s : StronglySorted Z.lt (group_keys s).
Proof.
  unfold group_keys. induction s as [|r s IH]; cbn.
  - constructor.
  - apply insert_key_sorted, IH.
Qed.

Lemma group_In s k r : In r (group s k) <-> In r s /\ split_idx (fst r) = k.
Proof. unfold group. rewrite filter_In, Z.eqb_eq. reflexivity. Qed.

(** A decomposition of a filtered list lifts to the list itself. *)
Lemma filter_decompose {A : Type} (f : A -> bool) (s : list A) : forall a x b,
  filter f s = a ++ x :: b ->
  exists a' b', s = a' ++ x :: b' /\ filter f a' = a /\ filter f b' = b.
Proof.
  induction s as [|y s IH]; intros a x b E; cbn in E.
  - destruct a; discriminate.
  - destruct (f y) eqn:Fy.
    + destruct a as [|a0 a]; cbn in E.
      * injection E as -> E. exists [], s. auto.
      * injection E as -> E. destruct (IH _ _ _ E) as (a' & b' & -> & Ha & Hb).
        exists (a0 :: a'), b'. cbn. rewrite Fy, Ha. auto.
    + destruct (IH _ _ _ E) as (a' & b' & -> & Ha & Hb).
      exists (y :: a'), b'. cbn. rewrite Fy. auto.
Qed.

(** *** [loc] and [getitem] *)

Lemma loc_ok s l rows :
  loc s l = Ok rows ->
  rows = filter (fun r => label_eqb (fst r) l) s /\ rows <> [].
Proof.
  unfold loc. destruct (filter _ s) eqn:E; [discriminate|].
  intros H. injection H as <-. split; [reflexivity|discriminate].
Qed.

Lemma loc_found s l : In l (index s) -> exists rows, loc s l = Ok rows.
Proof.
  intros Hl. unfold loc.
  destruct (filter (fun r => label_eqb (fst r) l) s) as [|r rows] eqn:E; eauto.
  exfalso. unfold index in Hl. apply in_map_iff in Hl as ([l' v] & <- & Hin).
  assert (H : In (l', v) (filter (fun r => label_eqb (fst r) (fst (l', v))) s)).
  { apply filter_In. split; [assumption|]. now apply label_eqb_eq. }
  rewrite E in H. destruct H.
Qed.

Lemma filter_label_unique s l v :
  NoDup (index s) -> In (l, v) s ->
  filter (fun r => label_eqb (fst r) l) s = [(l, v)].
Proof.
  unfold index. induction s as [|[l' v'] s IH]; cbn; intros Hnd Hin; [destruct Hin|].
  inversion Hnd as [|? ? Hnotin Hnd']; subst.
  destruct Hin as [E|Hin].
  - injection E as -> ->.
    replace (label_eqb l l) with true by (symmetry; now apply label_eqb_eq).
    f_equal.
    assert (Hnone : forall r, In r s -> label_eqb (fst r) l = false).
    { intros r Hr. destruct (label_eqb (fst r) l) eqn:E; trivial.
      apply label_eqb_eq in E. subst. exfalso. apply Hnotin.
      apply in_map. assumption. }
    clear - Hnone. induction s as [|r s IH]; cbn; trivial.
    rewrite (Hnone r (or_introl eq_refl)). apply IH. intros; apply Hnone; now right.
  - destruct (label_eqb l' l) eqn:E.
    + apply label_eqb_eq in E. subst. exfalso. apply Hnotin.
      change l with (fst (l, v)). now apply in_map.
    + now apply IH.
Qed.

(** The only failure of a lookup by labels is [KeyError]. *)
Lemma getitem_labels_raises s keys e : getitem_labels s keys = inl e -> e = KeyError.
Proof.
  induction keys as [|[l|] keys IH]; cbn.
  - discriminate.
  - unfold loc. destruct (filter _ s); cbn.
    + intros H. now injection H as <-.
    + destruct (getitem_labels s keys); cbn; [|discriminate].
      intros H. injection H as <-. now apply IH.
  - intros H. now injection H as <-.
Qed.

Lemma getitem_labels_nan_key s keys :
  In None keys -> getitem_labels s keys = Raise KeyError.
Proof.
  intros Hin.
  destruct (getitem_labels s keys) as [e|best] eqn:E.
  - now rewrite (getitem_labels_raises _ _ _ E).
  - exfalso. revert best E. induction keys as [|[l|] keys IH]; cbn; intros best E.
    + destruct Hin.
    + destruct Hin as [Hin|Hin]; [discriminate|].
      destruct (loc s l); cbn in E; [discriminate|].
      destruct (getitem_labels s keys); cbn in E; [discriminate|]. eauto.
    + discriminate.
Qed.

(** Keys that are all labels are looked up as labels. *)
Lemma getitem_some s ls : getitem s (map Some ls) = getitem_labels s (map Some ls).
Proof. destruct ls as [|l ls]; reflexivity. Qed.

(** A lookup that succeeds is a lookup by labels. *)
Lemma getitem_ok s keys best :
  getitem s keys = Ok best -> getitem_labels s keys = Ok best.
Proof.
  unfold getitem. destruct keys as [|key keys]; [trivial|].
  destruct (forallb isna (key :: keys)); [discriminate|trivial].
Qed.

(** A lookup fails with [KeyError] or [ValueError] only. *)
Lemma getitem_raises s keys e :
  getitem s keys = inl e -> e = KeyError \/ e = ValueError.
Proof.
  unfold getitem. destruct keys as [|key keys]; [discriminate|].
  destruct (forallb isna (key :: keys)).
  - intros H. injection H as <-. now right.
  - intros H. left. now apply getitem_labels_raises in H.
Qed.

(** A NaN among the keys makes the lookup fail. *)
Lemma getitem_nan_key s keys :
  In None keys ->
  exists e, getitem s keys = Raise e /\ (e = KeyError \/ e = ValueError).
Proof.
  intros Hin. unfold getitem. destruct keys as [|key keys]; [destruct Hin|].
  destruct (forallb isna (key :: keys)).
  - exists ValueError. auto.
  - exists KeyError. split; [|now left]. now apply getitem_labels_nan_key.
Qed.

Lemma getitem_found s ls :
  (forall l, In l ls -> In l (index s)) ->
  exists best, getitem s (map Some ls) = Ok best /\
               forall l, In l (index best) <-> In l ls.
Proof.
  rewrite getitem_some.
  induction ls as [|l ls IH]; intros Hall; cbn.
  - exists []. split; [reflexivity|]. cbn. tauto.
  - destruct (loc_found s l (Hall l (or_introl eq_refl))) as (rows & Hrows).
    destruct IH as (more & Hmore & Hidx); [intros; apply Hall; now right|].
    rewrite Hrows, Hmore. cbn. exists (rows ++ more). split; [reflexivity|].
    destruct (loc_ok _ _ _ Hrows) as [Hf Hne].
    intros l0. unfold index in *. rewrite map_app, in_app_iff, Hidx.
    assert (Hl : In l0 (map fst rows) <-> l0 = l).
    { split.
      - intros Hin. apply in_map_iff in Hin as (r & <- & Hr). rewrite Hf in Hr.
        apply filter_In in Hr as [_ Hr]. now apply label_eqb_eq in Hr.
      - intros ->. destruct rows as [|r rows]; [congruence|].
        assert (Hr : In r (r :: rows)) by now left.
        rewrite Hf in Hr. apply filter_In in Hr as [_ Hr].
        apply label_eqb_eq in Hr. cbn. now left. }
    rewrite Hl. intuition.
Qed.

Lemma getitem_unique s ls :
  NoDup (index s) -> (forall l, In l ls -> In l (index s)) ->
  exists best, getitem s (map Some ls) = Ok best /\ index best = ls.
Proof.
  rewrite getitem_some.
  intros Hnd. induction ls as [|l ls IH]; intros Hall; cbn.
  - exists []. auto.
  - destruct IH as (more & Hmore & Hidx); [intros; apply Hall; now right|].
    pose proof (Hall l (or_introl eq_refl)) as Hl.
    unfold index in Hl. apply in_map_iff in Hl as ([l' v] & E & Hin).
    cbn in E. subst l'.
    unfold loc. rewrite (filter_label_unique s l v Hnd Hin). cbn.
    rewrite Hmore. cbn. exists ((l, v) :: more). split; [reflexivity|].
    unfold index in *. cbn. now rewrite Hidx.
Qed.

End TableFacts.

(** ** Best selection *)

Module SelectionFacts.
Import Score ScoreFacts Pandas BestSelector ScanFacts TableFacts.

Lemma get_best_index_eq s hb :
  get_best_index s hb =
  (best <- getitem s (map (winner (better_of hb) s) (group_keys s)) ;; Ok (index best)).
Proof.
  unfold get_best_index, groupby_idxmax, groupby_idxmin, groupby_split_idx, winner.
  destruct hb; rewrite !map_map; reflexivity.
Qed.

Lemma valid_splitb_spec s k : valid_splitb s k = true <-> valid_split s k.
Proof.
  unfold valid_splitb, valid_split. rewrite existsb_exists. split.
  - intros (r & Hr & E). apply andb_true_iff in E as [E1 E2].
    apply Z.eqb_eq in E1. apply negb_true_iff in E2. eauto.
  - intros (r & Hr & E1 & E2). exists r. split; [assumption|].
    apply andb_true_iff. rewrite Z.eqb_eq, negb_true_iff. auto.
Qed.

Lemma all_splits_validb_spec s : all_splits_validb s = true <-> all_splits_valid s.
Proof.
  unfold all_splits_validb, all_splits_valid. rewrite forallb_forall.
  split; intros H r Hr; apply valid_splitb_spec, H, Hr.
Qed.

Lemma first_best_in_split_In better s l v :
  first_best_in_split better s l v -> In (l, v) s.
Proof. intros (pre & post & -> & _). apply in_elt. Qed.

Section Winner.

Variable hb : bool.

(** The winner of a valid split is the first best row of that split. *)
Lemma winner_valid s k :
  valid_split s k ->
  exists l v, winner (better_of hb) s k = Some l /\ split_idx l = k /\
              first_best_in_split (better_of hb) s l v.
Proof.
  intros (r & Hr & Hk & Hnan).
  destruct (arg_scan_some (better_of hb) (better_of_asym hb) (better_of_trans hb) (group s k))
    as (l & v & Hscan & pre & post & Hg & Hv & Hpre & Hpost).
  { exists r. split; [|assumption]. now apply group_In. }
  assert (Hl : split_idx l = k).
  { assert (Hin : In (l, v) (group s k)) by (rewrite Hg; apply in_elt).
    now apply group_In in Hin as [_ Hin]. }
  exists l, v. unfold winner. rewrite Hscan. repeat split; trivial.
  unfold group in Hg.
  destruct (filter_decompose _ _ _ _ _ Hg) as (pre' & post' & -> & Hfpre & Hfpost).
  exists pre', post'. repeat split; trivial.
  - intros r0 Hr0 Hs0 Hn0. apply Hpre; trivial. rewrite <- Hfpre.
    apply filter_In. split; [assumption|]. apply Z.eqb_eq. congruence.
  - intros r0 Hr0 Hs0 Hn0. apply Hpost; trivial. rewrite <- Hfpost.
    apply filter_In. split; [assumption|]. apply Z.eqb_eq. congruence.
Qed.

(** The winner of an all-NaN split is the NaN label. *)
Lemma winner_nan s k : nan_split s k -> winner (better_of hb) s k = None.
Proof.
  intros [_ Hall]. unfold winner.
  rewrite (arg_scan_none (better_of hb) (better_of_asym hb) (better_of_trans hb)); trivial.
  intros r Hr. apply group_In in Hr as [Hr Hk]. auto.
Qed.

Lemma winners_valid s keys :
  (forall k, In k keys -> valid_split s k) ->
  exists ls, map (winner (better_of hb) s) keys = map Some ls /\
             map split_idx ls = keys /\
             Forall (fun l => exists v, first_best_in_split (better_of hb) s l v) ls.
Proof.
  induction keys as [|k keys IH]; intros Hall.
  - exists []. repeat split. constructor.
  - destruct (winner_valid s k (Hall k (or_introl eq_refl))) as (l & v & Hw & Hk & Hfb).
    destruct IH as (ls & Hmap & Hks & Hfa); [intros; apply Hall; now right|].
    exists (l :: ls). cbn. rewrite Hw, Hmap, Hk, Hks. repeat split.
    constructor; eauto.
Qed.

(** When every split is valid the call succeeds; its index holds exactly
    the winners, and lists them once each, split by split, when no label
    is repeated in the table. *)
Lemma get_best_index_ok s :
  all_splits_valid s ->
  exists ls idx,
    get_best_index s hb = Ok idx /\
    map split_idx ls = group_keys s /\
    Forall (fun l => exists v, first_best_in_split (better_of hb) s l v) ls /\
    (forall l, In l idx <-> In l ls) /\
    (ScoreTable s -> idx = ls).
Proof.
  intros Hvalid.
  destruct (winners_valid s (group_keys s)) as (ls & Hmap & Hks & Hfa).
  { intros k Hk. apply group_keys_In in Hk as (r & Hr & <-). now apply Hvalid. }
  assert (Hin : forall l, In l ls -> In l (index s)).
  { intros l Hl. rewrite Forall_forall in Hfa. destruct (Hfa l Hl) as (v & Hfb).
    apply first_best_in_split_In in Hfb. unfold index.
    change l with (fst (l, v)). now apply in_map. }
  destruct (getitem_found s ls Hin) as (best & Hbest & Hidx).
  exists ls, (index best). rewrite get_best_index_eq.
  rewrite Hmap, Hbest. cbn. repeat split; trivial; try apply Hidx.
  intros Hnd. destruct (getitem_unique s ls Hnd Hin) as (best' & Hbest' & Hidx').
  rewrite Hbest in Hbest'. injection Hbest' as ->. assumption.
Qed.

(** A split that is all NaN makes the call fail, in the lookup. *)
Lemma get_best_index_nan s k :
  nan_split s k ->
  exists e, get_best_index s hb = Raise e /\ (e = KeyError \/ e = ValueError).
Proof.
  intros Hnan. rewrite get_best_index_eq.
  destruct (getitem_nan_key s (map (winner (better_of hb) s) (group_keys s)))
    as (e & -> & He).
  - rewrite <- (winner_nan s k Hnan). apply in_map.
    destruct Hnan as [Hex _]. now apply group_keys_In.
  - exists e. split; [reflexivity|assumption].
Qed.

End Winner.

Lemma score_unique s l v w : ScoreTable s -> In (l, v) s -> In (l, w) s -> v = w.
Proof.
  unfold ScoreTable, index. induction s as [|[l' v'] s IH]; cbn; [tauto|].
  intros Hnd Hv Hw. inversion Hnd as [|? ? Hnotin Hnd']; subst.
  destruct Hv as [Ev|Hv], Hw as [Ew|Hw].
  - congruence.
  - injection Ev as -> ->. exfalso. apply Hnotin.
    change l with (fst (l, w)). now apply in_map.
  - injection Ew as -> ->. exfalso. apply Hnotin.
    change l with (fst (l, v)). now apply in_map.
  - eauto.
Qed.

End SelectionFacts.

(** ** Selection never returns a NaN score, and ties go to the first row *)

Module SelectionProperties.
Import Score ScoreFacts Pandas BestSelector ScanFacts TableFacts SelectionFacts Scenarios.

(** C1, in the form that holds of the code.  On a score table in which
    every split has at least one non-NaN entry, [get_best_index] returns,
    for every split, a pair whose score is not NaN.  As soon as one split
    has only NaN entries the whole call fails, with the [KeyError] or the
    [ValueError] the table library raises on the NaN label of that split,
    and no pair is returned for any split. *)
Theorem get_best_index_never_nan (s : Series) (hb : bool) :
  ScoreTable s ->
  (all_splits_valid s ->
   exists idx,
     get_best_index s hb = Ok idx /\
     (forall r, In r s -> exists l, In l idx /\ split_idx l = split_idx (fst r)) /\
     (forall l v, In l idx -> In (l, v) s -> is_nan v = false)) /\
  ((exists k, nan_split s k) ->
   exists e, get_best_index s hb = Raise e /\ (e = KeyError \/ e = ValueError)).
Proof.
  intros Hnd. split.
  - intros Hvalid.
    destruct (get_best_index_ok hb s Hvalid) as (ls & idx & Hget & Hks & Hfa & Hidx & _).
    exists idx. split; [assumption|]. rewrite Forall_forall in Hfa. split.
    + intros r Hr.
      assert (Hk : In (split_idx (fst r)) (group_keys s)) by (apply group_keys_In; eauto).
      rewrite <- Hks in Hk. apply in_map_iff in Hk as (l & Hl & Hin).
      exists l. split; [now apply Hidx|assumption].
    + intros l v Hl Hv. apply Hidx in Hl. destruct (Hfa l Hl) as (w & Hfb).
      pose proof (first_best_in_split_In _ _ _ _ Hfb) as Hw.
      rewrite (score_unique s l v w Hnd Hv Hw).
      now destruct Hfb as (pre & post & _ & Hnan & _).
  - intros (k & Hk). now apply get_best_index_nan with k.
Qed.

Lemma get_best_index_never_nan_witness :
  (ScoreTable sharpe_two_splits /\ all_splits_valid sharpe_two_splits /\
   exists idx,
     get_best_index sharpe_two_splits true = Ok idx /\
     (forall r, In r sharpe_two_splits ->
                exists l, In l idx /\ split_idx l = split_idx (fst r)) /\
     (forall l v, In l idx -> In (l, v) sharpe_two_splits -> is_nan v = false)) /\
  (ScoreTable sharpe_nan_split /\ nan_split sharpe_nan_split 1 /\
   exists e, get_best_index sharpe_nan_split true = Raise e /\
             (e = KeyError \/ e = ValueError)).
Proof.
  assert (T1 : ScoreTable sharpe_two_splits).
  { unfold ScoreTable. cbn. repeat constructor; cbn; intuition discriminate. }
  assert (V1 : all_splits_valid sharpe_two_splits).
  { apply all_splits_validb_spec. reflexivity. }
  assert (T2 : ScoreTable sharpe_nan_split).
  { unfold ScoreTable. cbn. repeat constructor; cbn; intuition discriminate. }
  assert (N2 : nan_split sharpe_nan_split 1).
  { split.
    - exists (mkLabel 10 20 1, S754_nan). cbn. auto.
    - intros r [<-|[<-|[]]]; cbn; [discriminate|reflexivity]. }
  split.
  - split; [exact T1|]. split; [exact V1|].
    exact (proj1 (get_best_index_never_nan sharpe_two_splits true T1) V1).
  - split; [exact T2|]. split; [exact N2|].
    exact (proj2 (get_best_index_never_nan sharpe_nan_split true T2)
             (ex_intro _ 1 N2)).
Defined.

(** In the specification's wording C1 treats the splits one by one: a
    split with a non-NaN entry would get its pair whatever the other splits
    hold.  On [sharpe_nan_split] split 0 has a score, yet the call returns
    nothing. *)
Lemma get_best_index_not_per_split :
  ~ (forall (s : Series) (hb : bool) (k : Z),
       ScoreTable s -> valid_split s k ->
       exists idx l,
         get_best_index s hb = Ok idx /\ In l idx /\ split_idx l = k /\
         (forall v, In (l, v) s -> is_nan v = false)).
Proof.
  intros H.
  destruct (H sharpe_nan_split true 0) as (idx & l & Hget & _).
  - unfold ScoreTable. cbn. repeat constructor; cbn; intuition discriminate.
  - apply valid_splitb_spec. reflexivity.
  - vm_compute in Hget. discriminate.
Qed.

(** C8, in the form that holds of the code.  When two or more pairs of a
    split share the extreme score, [get_best_index] returns the one on the
    first such row of the score table: every row of the split above the
    returned one is NaN or strictly worse, and none below it is better.
    The tie therefore goes to the earliest pair of the grid when the rows
    of the table follow the enumeration order of the grid, which is how
    [simulate_all_params] lays them out; it does depend on the row order. *)
Theorem get_best_index_tie_first_row (s : Series) (hb : bool) :
  all_splits_valid s ->
  exists idx,
    get_best_index s hb = Ok idx /\
    (forall r, In r s -> exists l, In l idx /\ split_idx l = split_idx (fst r)) /\
    (forall l, In l idx ->
       exists v,
         first_best_in_split (better_of hb) s l v /\
         (forall before : Z * Z -> Z * Z -> Prop,
            rows_in_order before s ->
            forall l' v',
              In (l', v') s -> split_idx l' = split_idx l ->
              is_nan v' = false -> better_of hb v v' = false ->
              l' = l \/ before (windows_of l) (windows_of l'))).
Proof.
  intros Hvalid.
  destruct (get_best_index_ok hb s Hvalid) as (ls & idx & Hget & Hks & Hfa & Hidx & _).
  exists idx. split; [assumption|]. rewrite Forall_forall in Hfa. split.
  - intros r Hr.
    assert (Hk : In (split_idx (fst r)) (group_keys s)) by (apply group_keys_In; eauto).
    rewrite <- Hks in Hk. apply in_map_iff in Hk as (l & Hl & Hin).
    exists l. split; [now apply Hidx|assumption].
  - intros l Hl. apply Hidx in Hl. destruct (Hfa l Hl) as (v & Hfb).
    exists v. split; [assumption|].
    intros before Hord l' v' Hin' Hsplit Hnan' Htie.
    destruct Hfb as (pre & post & Hs & Hnan & Hpre & Hpost).
    rewrite Hs in Hin'. apply in_app_or in Hin' as [Hin'|[E|Hin']].
    + specialize (Hpre (l', v') Hin' Hsplit Hnan'). cbn in Hpre. congruence.
    + injection E as -> ->. now left.
    + right. apply in_split in Hin' as (a & b & ->).
      apply (Hord (pre ++ (l, v) :: a) (l', v') b (l, v)).
      * rewrite Hs, <- app_assoc. reflexivity.
      * apply in_elt.
      * cbn. congruence.
Qed.

Lemma get_best_index_tie_first_row_witness :
  all_splits_valid sharpe_two_splits /\
  exists idx,
    get_best_index sharpe_two_splits true = Ok idx /\
    (forall r, In r sharpe_two_splits ->
               exists l, In l idx /\ split_idx l = split_idx (fst r)) /\
    (forall l, In l idx ->
       exists v,
         first_best_in_split (better_of true) sharpe_two_splits l v /\
         (forall before : Z * Z -> Z * Z -> Prop,
            rows_in_order before sharpe_two_splits ->
            forall l' v',
              In (l', v') sharpe_two_splits -> split_idx l' = split_idx l ->
              is_nan v' = false -> better_of true v v' = false ->
              l' = l \/ before (windows_of l) (windows_of l'))).
Proof.
  assert (V : all_splits_valid sharpe_two_splits).
  { apply all_splits_validb_spec. reflexivity. }
  split; [exact V|].
  exact (get_best_index_tie_first_row sharpe_two_splits true V).
Defined.

(** In the specification's wording C8 makes the tie independent of the row
    order.  In [sharpe_tie_reordered] the pairs (20, 30) and (10, 20) tie
    and the later one of the grid stands on the first row: it is the one
    returned. *)
Lemma get_best_index_tie_depends_on_rows :
  ~ (forall (s : Series) (hb : bool) (idx : list label) (l l' : label) (v v' : score),
       get_best_index s hb = Ok idx -> In l idx ->
       In (l, v) s -> In (l', v') s -> split_idx l' = split_idx l ->
       SFeqb v v' = true ->
       l' = l \/ ParameterGrid.pair_lt (windows_of l) (windows_of l')).
Proof.
  intros H.
  destruct (H sharpe_tie_reordered true [mkLabel 20 30 0]
              (mkLabel 20 30 0) (mkLabel 10 20 0) one one) as [E|[Hlt|[_ Hlt]]];
    try reflexivity; cbn; auto.
  - discriminate.
  - cbn in Hlt. lia.
  - cbn in Hlt. lia.
Qed.

End SelectionProperties.

(** ** The parameter grid *)

Module GridFacts.
Import ParameterGrid.

Lemma combinations_1 {A : Type} (l : list A) :
  combinations 1 l = map (fun y => [y]) l.
Proof.
  induction l as [|x t IH]; cbn in *; [reflexivity|]. now rewrite IH.
Qed.

Lemma run_combs_windows_pairs (ws : list Z) : run_combs_windows ws = pairs ws.
Proof.
  unfold run_combs_windows.
  induction ws as [|x t IH]; [reflexivity|].
  change (combinations 2 (x :: t))
    with (map (cons x) (combinations 1 t) ++ combinations 2 t).
  rewrite flat_map_app, IH, combinations_1. cbn [pairs]. f_equal.
  clear IH. induction t as [|y t IH]; cbn; [reflexivity|]. now rewrite IH.
Qed.

Lemma pairs_length (l : list Z) :
  2 * Z.of_nat (length (pairs l)) = Z.of_nat (length l) * (Z.of_nat (length l) - 1).
Proof.
  induction l as [|x t IH]; [reflexivity|].
  cbn [pairs length]. rewrite length_app, length_map. lia.
Qed.

Lemma StronglySorted_app {A : Type} (R : A -> A -> Prop) (l1 l2 : list A) :
  StronglySorted R l1 -> StronglySorted R l2 ->
  (forall a b, In a l1 -> In b l2 -> R a b) ->
  StronglySorted R (l1 ++ l2).
Proof.
  induction 1 as [|a l1 Hs IH Hall]; intros H2 Hcross; cbn; [assumption|].
  constructor.
  - apply IH; [assumption|]. intros; apply Hcross; [now right|assumption].
  - apply Forall_app. split; [assumption|].
    apply Forall_forall. intros b Hb. apply Hcross; [now left|assumption].
Qed.

Lemma StronglySorted_NoDup {A : Type} (R : A -> A -> Prop) (l : list A) :
  (forall a, ~ R a a) -> StronglySorted R l -> NoDup l.
Proof.
  intros Hirr. induction 1 as [|a l Hs IH Hall]; constructor; [|assumption].
  intros Hin. rewrite Forall_forall in Hall. exact (Hirr a (Hall a Hin)).
Qed.

Lemma pairs_In_sorted (l : list Z) : StronglySorted Z.lt l ->
  forall a b, In (a, b) (pairs l) <-> In a l /\ In b l /\ a < b.
Proof.
  induction 1 as [|x t Hs IH Hall]; intros a b; cbn [pairs].
  - cbn. tauto.
  - rewrite Forall_forall in Hall.
    rewrite in_app_iff, in_map_iff, IH. cbn [In]. split.
    + intros [(y & E & Hy)|(Ha & Hb & Hab)].
      * injection E as <- <-. pose proof (Hall y Hy). auto.
      * auto.
    + intros ([<-|Ha] & [<-|Hb] & Hab).
      * lia.
      * left. eauto.
      * pose proof (Hall a Ha). lia.
      * auto.
Qed.

Lemma pairs_sorted (l : list Z) :
  StronglySorted Z.lt l -> StronglySorted pair_lt (pairs l).
Proof.
  induction 1 as [|x t Hs IH Hall]; cbn [pairs]; [constructor|].
  rewrite Forall_forall in Hall.
  apply StronglySorted_app; [|assumption|].
  - clear IH Hall. induction Hs as [|y t Hs IH Hall]; cbn; constructor; [assumption|].
    apply Forall_forall. intros p Hp. apply in_map_iff in Hp as (z & <- & Hz).
    rewrite Forall_forall in Hall. right. cbn. split; [reflexivity|auto].
  - intros [a b] [c d] Hab Hcd. apply in_map_iff in Hab as (y & E & Hy).
    injection E as <- <-.
    apply (pairs_In_sorted t Hs) in Hcd as (Hc & _). left. cbn. auto.
Qed.

(** C2, in the form that holds of the code.  For every strictly increasing
    sequence of [k] candidate windows the enumeration behind [run_combs]
    with [r=2] yields exactly [k (k - 1) / 2] pairs, without duplicates,
    each with its first element below its second, in lexicographic order,
    and they are all the pairs [a < b] of candidates; in particular
    [10; 20; 30] gives (10, 20), (10, 30), (20, 30).  The pairs are formed
    by position in the candidate sequence, so the order conditions need the
    candidates to be listed in increasing order. *)
Theorem run_combs_windows_increasing (ws : list Z) :
  StronglySorted Z.lt ws ->
  Z.of_nat (length (run_combs_windows ws))
    = Z.of_nat (length ws) * (Z.of_nat (length ws) - 1) / 2 /\
  NoDup (run_combs_windows ws) /\
  (forall p, In p (run_combs_windows ws) -> fst p < snd p) /\
  StronglySorted pair_lt (run_combs_windows ws) /\
  (forall a b, In (a, b) (run_combs_windows ws) <-> In a ws /\ In b ws /\ a < b) /\
  run_combs_windows [10; 20; 30] = [(10, 20); (10, 30); (20, 30)].
Proof.
  intros Hs. rewrite run_combs_windows_pairs.
  pose proof (pairs_sorted ws Hs) as Hsorted.
  split; [|split; [|split; [|split; [|split]]]].
  - rewrite <- pairs_length. rewrite Z.mul_comm, Z.div_mul; lia.
  - apply (StronglySorted_NoDup pair_lt); [|assumption].
    intros [a b] [H|[_ H]]; cbn in H; lia.
  - intros [a b] Hp. apply (pairs_In_sorted ws Hs) in Hp. cbn. tauto.
  - assumption.
  - apply pairs_In_sorted, Hs.
  - reflexivity.
Qed.

Lemma run_combs_windows_increasing_witness :
  StronglySorted Z.lt windows /\
  Z.of_nat (length (run_combs_windows windows)) = 780 /\
  NoDup (run_combs_windows windows).
Proof.
  assert (Hs : StronglySorted Z.lt windows).
  { unfold windows, arange. cbn. repeat (constructor; [|repeat constructor; lia]).
    constructor. }
  split; [exact Hs|].
  destruct (run_combs_windows_increasing windows Hs) as (Hlen & Hnd & _).
  split; [rewrite Hlen; reflexivity|exact Hnd].
Defined.

(** In the specification's wording C2 takes any sequence of distinct
    positive candidates.  Listed as [20; 10], they give the single pair (20, 10). *)
Lemma run_combs_windows_by_position :
  ~ (forall ws : list Z,
       NoDup ws -> Forall (fun w => 0 < w) ws ->
       forall p, In p (run_combs_windows ws) -> fst p < snd p).
Proof.
  intros H.
  assert (Hnd : NoDup [20; 10]).
  { repeat constructor; cbn; intuition discriminate. }
  assert (Hpos : Forall (fun w => 0 < w) [20; 10]).
  { repeat constructor. }
  specialize (H [20; 10] Hnd Hpos (20, 10) (or_introl eq_refl)).
  cbn in H. lia.
Qed.

End GridFacts.

(** ** The rolling splitter *)

Module SplitterFacts.
Import ParameterGrid RollingSplitter Scenarios.

Lemma arange_In lo hi i : In i (arange lo hi) <-> lo <= i < hi.
Proof.
  unfold arange. rewrite in_map_iff. split.
  - intros (k & <- & Hk). apply in_seq in Hk. lia.
  - intros H. exists (Z.to_nat (i - lo)). split; [lia|]. apply in_seq. lia.
Qed.

Lemma arange_length lo hi : length (arange lo hi) = Z.to_nat (hi - lo).
Proof. unfold arange. now rewrite length_map, length_seq. Qed.

Lemma arange_nth lo hi i d :
  0 <= i < hi - lo -> nth (Z.to_nat i) (arange lo hi) d = lo + i.
Proof.
  intros H. unfold arange.
  rewrite (nth_indep _ d (lo + Z.of_nat 0)) by (rewrite length_map, length_seq; lia).
  rewrite (map_nth (fun k => lo + Z.of_nat k)), seq_nth by lia. lia.
Qed.

Lemma arange_empty lo hi : hi <= lo -> arange lo hi = [].
Proof.
  intros H. unfold arange. replace (Z.to_nat (hi - lo)) with 0%nat by lia. reflexivity.
Qed.

Lemma arange_app a b c : a <= b <= c -> arange a b ++ arange b c = arange a c.
Proof.
  intros H. unfold arange.
  replace (Z.to_nat (c - a)) with (Z.to_nat (b - a) + Z.to_nat (c - b))%nat by lia.
  rewrite seq_app, map_app. f_equal. cbn [Nat.add].
  replace (Z.to_nat (b - a)) with (Z.to_nat (b - a) + 0)%nat at 1 by lia.
  generalize 0%nat as k. generalize (Z.to_nat (c - b)) as m.
  induction m as [|m IH]; intros k; cbn; [reflexivity|].
  f_equal; [lia|].
  replace (S (Z.to_nat (b - a) + k)) with (Z.to_nat (b - a) + S k)%nat by lia.
  apply IH.
Qed.

Lemma sum_lens_app a b : sum_lens (a ++ b) = sum_lens a + sum_lens b.
Proof. induction a as [|x a IH]; cbn; lia. Qed.

Lemma sum_lens_nonneg lens : Forall (fun l => 0 <= l) lens -> 0 <= sum_lens lens.
Proof. induction 1; cbn; lia. Qed.

Lemma Forall_pos_nonneg lens :
  Forall (fun l => 0 < l) lens -> Forall (fun l => 0 <= l) lens.
Proof. apply Forall_impl. intros; lia. Qed.

Lemma set_ranges_app from a b :
  set_ranges from (a ++ b) = set_ranges from a ++ set_ranges (from + sum_lens a) b.
Proof.
  revert from. induction a as [|x a IH]; intros from; cbn.
  - now rewrite Z.add_0_r.
  - now rewrite IH, Z.add_assoc.
Qed.

Lemma set_ranges_concat from lens :
  Forall (fun l => 0 <= l) lens ->
  concat (set_ranges from lens) = arange from (from + sum_lens lens).
Proof.
  intros H. revert from. induction H as [|x lens Hx Hall IH]; intros from; cbn.
  - rewrite arange_empty; [reflexivity|lia].
  - rewrite IH. pose proof (sum_lens_nonneg _ Hall).
    rewrite arange_app by lia. f_equal. lia.
Qed.

(** The blocks of a non-empty list of positive lengths: all but the last
    cover the indices up to the start of the last one. *)
Lemma set_ranges_in_out from init l :
  Forall (fun l => 0 <= l) init ->
  in_sample (set_ranges from (init ++ [l])) = arange from (from + sum_lens init) /\
  out_sample (set_ranges from (init ++ [l]))
    = arange (from + sum_lens init) (from + sum_lens init + l).
Proof.
  intros H. unfold in_sample, out_sample. rewrite set_ranges_app. cbn [set_ranges].
  rewrite removelast_last, last_last. split; [|reflexivity].
  now apply set_ranges_concat.
Qed.

Lemma existsb_nonpositive lens :
  Forall (fun l => 0 < l) lens -> existsb (fun set_len => set_len <=? 0) lens = false.
Proof.
  induction 1 as [|x lens Hx Hall IH]; cbn; [reflexivity|].
  rewrite IH. replace (x <=? 0) with false by (symmetry; apply Z.leb_gt; lia).
  reflexivity.
Qed.

(** One window of a valid configuration is cut in two consecutive parts. *)
Lemma split_range_into_sets_ok start window_len set_lens ltr :
  0 < window_len ->
  Forall (fun l => 0 < l) set_lens ->
  sum_lens set_lens <= window_len ->
  exists sets,
    split_range_into_sets start (start + window_len - 1) set_lens ltr = Ok sets /\
    window_split start window_len sets.
Proof.
  intros Hw Hpos Hsum. unfold split_range_into_sets.
  replace (start + window_len - 1 - start + 1) with window_len by lia.
  destruct set_lens as [|l0 lens0] eqn:E.
  - eexists. split; [reflexivity|]. exists start. unfold in_sample, out_sample. cbn.
    replace (start + window_len - 1 + 1) with (start + window_len) by lia.
    repeat split; try lia. rewrite arange_empty; [reflexivity|lia].
  - rewrite <- E in *. rewrite (existsb_nonpositive _ Hpos).
    replace (sum_lens set_lens <=? window_len) with true
      by (symmetry; apply Z.leb_le; lia).
    eexists. split; [reflexivity|].
    pose proof (Forall_pos_nonneg _ Hpos) as Hnonneg.
    pose proof (sum_lens_nonneg _ Hnonneg) as Hnn.
    destruct ltr.
    + destruct (set_ranges_in_out start set_lens (window_len - sum_lens set_lens) Hnonneg)
        as [Hin Hout].
      exists (start + sum_lens set_lens). rewrite Hin, Hout.
      repeat split; try lia. f_equal. lia.
    + assert (Hne : set_lens <> []) by (rewrite E; discriminate).
      destruct (exists_last Hne) as (init & l & Hlast).
      rewrite Hlast in *. rewrite sum_lens_app in *. cbn [sum_lens] in *.
      apply Forall_app in Hnonneg as [Hinit Hl]. inversion Hl as [|? ? Hl0 _]; subst.
      pose proof (sum_lens_nonneg _ Hinit) as Hnn'.
      change ((window_len - (sum_lens init + (l + 0))) :: init ++ [l])
        with (((window_len - (sum_lens init + (l + 0))) :: init) ++ [l]).
      destruct (set_ranges_in_out start ((window_len - (sum_lens init + (l + 0))) :: init) l)
        as [Hin Hout].
      { constructor; [lia|assumption]. }
      exists (start + sum_lens ((window_len - (sum_lens init + (l + 0))) :: init)).
      rewrite Hin, Hout. cbn [sum_lens].
      repeat split; try lia. f_equal. lia.
Qed.

Lemma split_ranges_into_sets_ok window_len set_lens ltr ranges :
  0 < window_len ->
  Forall (fun l => 0 < l) set_lens ->
  sum_lens set_lens <= window_len ->
  Forall (fun r => snd r = fst r + window_len - 1) ranges ->
  exists splits,
    split_ranges_into_sets ranges set_lens ltr = Ok splits /\
    Forall2 (fun r sets => window_split (fst r) window_len sets) ranges splits.
Proof.
  intros Hw Hpos Hsum. induction 1 as [|[start end_] ranges Hr Hall IH]; cbn.
  - exists []. split; [reflexivity|constructor].
  - cbn in Hr. subst end_.
    destruct (split_range_into_sets_ok start window_len set_lens ltr Hw Hpos Hsum)
      as (sets & Hsets & Hsplit).
    destruct IH as (splits & Hsplits & Hall2).
    rewrite Hsets, Hsplits. cbn. exists (sets :: splits).
    split; [reflexivity|]. constructor; assumption.
Qed.

Lemma round_half_even_bounds num den last :
  0 < den -> 0 <= num <= den * last ->
  0 <= round_half_even num den <= last.
Proof.
  intros Hden Hnum. unfold round_half_even.
  pose proof (Z.div_mod num den ltac:(lia)) as Hdm.
  pose proof (Z.mod_pos_bound num den Hden) as Hmod.
  assert (Hq : 0 <= num / den <= last).
  { split; [apply Z.div_pos; lia|]. apply Z.div_le_upper_bound; lia. }
  assert (Hup : 0 < num mod den -> num / den + 1 <= last) by nia.
  destruct (2 * (num mod den) <? den) eqn:E1; [lia|].
  apply Z.ltb_ge in E1.
  destruct (den <? 2 * (num mod den)); [lia|].
  destruct (Z.even (num / den)); lia.
Qed.

Lemma spread_spec last n :
  1 <= n -> 0 <= last ->
  length (spread last n) = Z.to_nat n /\
  Forall (fun i => 0 <= i <= last) (spread last n).
Proof.
  intros Hn Hlast. unfold spread.
  destruct (n =? 1) eqn:E.
  - apply Z.eqb_eq in E. subst. split; [reflexivity|]. repeat constructor; lia.
  - apply Z.eqb_neq in E. rewrite length_map, arange_length. split; [f_equal; lia|].
    apply Forall_forall. intros x Hx. apply in_map_iff in Hx as (i & <- & Hi).
    apply arange_In in Hi. apply round_half_even_bounds; nia.
Qed.

(** The windows of a valid configuration: the call succeeds, gives the
    requested number of splits, and every split is a whole window of the
    series cut in two consecutive parts. *)
Lemma rolling_split_ok total_len n window_len set_lens ltr :
  valid_configuration total_len n window_len set_lens ->
  exists splits,
    rolling_split total_len n window_len set_lens ltr = Ok splits /\
    Z.of_nat (length splits)
      = match n with Some n => n | None => total_len - window_len + 1 end /\
    Forall (fun sets => exists start,
                0 <= start <= total_len - window_len /\
                window_split start window_len sets) splits.
Proof.
  intros ((Hw & Hlen) & Hpos & Hsum & Hn). unfold rolling_split.
  replace (window_len <=? 0) with false by (symmetry; apply Z.leb_gt; lia).
  replace (total_len <? window_len) with false by (symmetry; apply Z.ltb_ge; lia).
  set (m := total_len - window_len + 1).
  assert (Hranges : exists ranges,
    match n with
    | None => Ok (combine (arange 0 m) (arange (window_len - 1) total_len))
    | Some n =>
        if n <=? 0 then Raise ValueError
        else if Z.of_nat (length (arange 0 m)) <? n then Raise InsufficientDataError
        else Ok (map (fun i => (nth (Z.to_nat i) (arange 0 m) 0,
                                nth (Z.to_nat i) (arange (window_len - 1) total_len) 0))
                     (spread (Z.of_nat (length (arange 0 m)) - 1) n))
    end = Ok ranges /\
    Z.of_nat (length ranges) = match n with Some n => n | None => m end /\
    Forall (fun r => 0 <= fst r <= total_len - window_len /\
                     snd r = fst r + window_len - 1) ranges).
  { destruct n as [n|].
    - replace (n <=? 0) with false by (symmetry; apply Z.leb_gt; lia).
      rewrite arange_length.
      replace (Z.of_nat (Z.to_nat (m - 0)) <? n) with false
        by (symmetry; apply Z.ltb_ge; lia).
      eexists. split; [reflexivity|].
      destruct (spread_spec (Z.of_nat (Z.to_nat (m - 0)) - 1) n) as [Hl Hb]; [lia|lia|].
      rewrite length_map, Hl. split; [lia|].
      apply Forall_forall. intros r Hr. apply in_map_iff in Hr as (i & <- & Hi).
      rewrite Forall_forall in Hb. specialize (Hb i Hi). cbn [fst snd].
      rewrite !arange_nth by lia. lia.
    - eexists. split; [reflexivity|].
      assert (Hgen : forall k lo,
                0 <= lo -> lo + Z.of_nat k <= m ->
                Forall (fun r => 0 <= fst r <= total_len - window_len /\
                                 snd r = fst r + window_len - 1)
                  (combine (map (fun i => 0 + Z.of_nat i) (seq (Z.to_nat lo) k))
                           (map (fun i => window_len - 1 + Z.of_nat i) (seq (Z.to_nat lo) k)))).
      { induction k as [|k IH]; intros lo Hlo Hk; cbn; constructor.
        - cbn. lia.
        - replace (S (Z.to_nat lo)) with (Z.to_nat (lo + 1)) by lia.
          apply IH; lia. }
      split.
      + rewrite length_combine, !arange_length. lia.
      + unfold arange.
        replace (Z.to_nat (total_len - (window_len - 1))) with (Z.to_nat (m - 0)) by lia.
        apply (Hgen (Z.to_nat (m - 0)) 0); lia. }
  destruct Hranges as (ranges & -> & Hcount & Hall). cbn.
  destruct (split_ranges_into_sets_ok window_len set_lens ltr ranges Hw Hpos Hsum)
    as (splits & -> & Hall2).
  { eapply Forall_impl; [|exact Hall]. cbn. tauto. }
  exists splits. split; [reflexivity|]. split.
  - rewrite <- Hcount. f_equal. symmetry. eapply Forall2_length, Hall2.
  - clear Hcount. induction Hall2 as [|r sets ranges splits Hws Hall2 IH].
    + constructor.
    + inversion Hall as [|? ? Hr Hall']; subst. constructor; [|now apply IH].
      exists (fst r). split; [tauto|assumption].
Qed.

(** Windows placed by stride: as many as fit, every one a whole window of
    the series cut in two consecutive parts, the [i]-th starting [i]
    strides after the first. *)
Lemma split_by_stride_ok total_len stride window_len set_lens from_start :
  0 < window_len <= total_len -> 0 < stride ->
  Forall (fun l => 0 < l) set_lens -> sum_lens set_lens <= window_len ->
  exists splits,
    split_by_stride total_len stride window_len set_lens from_start = Ok splits /\
    Z.of_nat (length splits) = (total_len - window_len) / stride + 1 /\
    Forall2 (fun start sets => 0 <= start <= total_len - window_len /\
                               window_split start window_len sets)
            (window_starts total_len stride window_len from_start) splits.
Proof.
  intros [Hw Hlen] Hstride Hpos Hsum. unfold split_by_stride.
  replace (window_len <=? 0) with false by (symmetry; apply Z.leb_gt; lia).
  replace (stride <=? 0) with false by (symmetry; apply Z.leb_gt; lia).
  replace (total_len <? window_len) with false by (symmetry; apply Z.ltb_ge; lia).
  set (starts := window_starts total_len stride window_len from_start).
  destruct (split_ranges_into_sets_ok window_len set_lens false
              (map (fun start_idx => (start_idx, start_idx + window_len - 1)) starts)
              Hw Hpos Hsum) as (splits & Hsplits & Hall).
  { apply Forall_forall. intros r Hr. apply in_map_iff in Hr as (start & <- & _).
    reflexivity. }
  exists splits. split; [exact Hsplits|].
  pose proof (Z.div_mod (total_len - window_len) stride ltac:(lia)) as Hdm.
  pose proof (Z.mod_pos_bound (total_len - window_len) stride Hstride) as Hmod.
  assert (Hq : 0 <= (total_len - window_len) / stride) by (apply Z.div_pos; lia).
  split.
  - rewrite <- (Forall2_length Hall), length_map. unfold starts, window_starts.
    rewrite length_map, arange_length. lia.
  - assert (Hstarts : Forall (fun start => 0 <= start <= total_len - window_len) starts).
    { apply Forall_forall. intros start Hs. unfold starts, window_starts in Hs.
      apply in_map_iff in Hs as (i & <- & Hi). apply arange_In in Hi.
      remember ((total_len - window_len) / stride) as q.
      remember ((total_len - window_len) mod stride) as r.
      assert (Hiq : i * stride <= q * stride) by (apply Z.mul_le_mono_nonneg_r; lia).
      destruct from_start; nia. }
    clearbody starts. clear Hsplits. revert splits Hall.
    induction Hstarts as [|start starts Hs Hrest IH]; intros splits Hall;
      inversion Hall as [|? sets ? splits' Hsplit Hall']; subst; constructor.
    + split; [exact Hs|exact Hsplit].
    + now apply IH.
Qed.

(** The notebook's first call passes no count: a window then starts at
    every index that leaves room for it, six of them on ten points. *)
Lemma rolling_split_every_start :
  exists splits,
    rolling_split (Z.of_nat (length sr)) None 5 [1] false = Ok splits /\
    map out_sample splits = [[4]; [5]; [6]; [7]; [8]; [9]].
Proof. eexists. split; reflexivity. Qed.

(** Asked for two windows on the ten points, [rolling_split] places them
    where the non-overlapping placement does. *)
Lemma rolling_split_two_side_by_side :
  rolling_split (Z.of_nat (length sr)) (Some 2) 5 [1] false
  = non_overlapping_split (Z.of_nat (length sr)) 5 [1] true.
Proof. reflexivity. Qed.

End SplitterFacts.

Module SplitterProperties.
Import ParameterGrid RollingSplitter Scenarios SplitterFacts WalkForward.

(** C3.  The ten-point series [sr], windows of five observations, one
    out-of-sample segment of length one, non-overlapping placement: the
    splitter produces exactly two splits, split 0 over the indices 0..4
    with out-of-sample index 4, split 1 over the indices 5..9 with
    out-of-sample index 9, whichever end of the series the windows are
    anchored at. *)
Theorem rolling_split_ten_points (from_start : bool) :
  exists split0 split1,
    non_overlapping_split (Z.of_nat (length sr)) 5 [1] from_start
      = Ok [split0; split1] /\
    in_sample split0 ++ out_sample split0 = arange 0 5 /\
    out_sample split0 = [4] /\
    in_sample split1 ++ out_sample split1 = arange 5 10 /\
    out_sample split1 = [9].
Proof.
  exists [[0; 1; 2; 3]; [4]], [[5; 6; 7; 8]; [9]].
  destruct from_start; repeat split.
Qed.

(** C4.  For every valid configuration the splitter returns the requested
    splits, and in each of them the in-sample and out-of-sample index
    ranges are disjoint, every out-of-sample index (hence timestamp, the
    timestamps of a series being strictly increasing) follows every
    in-sample one, and the two ranges together hold [window_len]
    observations of the series. *)
Theorem rolling_split_in_then_out (total_len : Z) (n : option Z) (window_len : Z)
    (set_lens : list Z) (left_to_right : bool) :
  valid_configuration total_len n window_len set_lens ->
  exists splits,
    rolling_split total_len n window_len set_lens left_to_right = Ok splits /\
    Z.of_nat (length splits)
      = match n with Some n => n | None => total_len - window_len + 1 end /\
    forall sets, In sets splits ->
      (forall i, In i (in_sample sets) -> ~ In i (out_sample sets)) /\
      (forall i j, In i (in_sample sets) -> In j (out_sample sets) -> i < j) /\
      (forall time : Z -> Z,
         (forall a b, a < b -> time a < time b) ->
         forall i j, In i (in_sample sets) -> In j (out_sample sets) -> time i < time j) /\
      Z.of_nat (length (in_sample sets)) + Z.of_nat (length (out_sample sets))
        = window_len /\
      (forall i, In i (in_sample sets ++ out_sample sets) -> 0 <= i < total_len).
Proof.
  intros Hvalid.
  destruct (rolling_split_ok total_len n window_len set_lens left_to_right Hvalid)
    as (splits & Hsplit & Hcount & Hall).
  exists splits. split; [assumption|]. split; [assumption|].
  intros sets Hsets. rewrite Forall_forall in Hall.
  destruct (Hall sets Hsets) as (start & Hstart & mid & Hmid & Hin & Hout).
  rewrite Hin, Hout.
  assert (Horder : forall i j, In i (arange start mid) ->
                               In j (arange mid (start + window_len)) -> i < j).
  { intros i j Hi Hj. apply arange_In in Hi, Hj. lia. }
  split; [|split; [|split; [|split]]].
  - intros i Hi Hi'. specialize (Horder i i Hi Hi'). lia.
  - exact Horder.
  - intros time Hmono i j Hi Hj. apply Hmono, Horder; assumption.
  - rewrite !arange_length. lia.
  - intros i Hi. apply in_app_or in Hi as [Hi|Hi]; apply arange_In in Hi; lia.
Qed.

Lemma rolling_split_in_then_out_witness :
  valid_configuration 10000 (Some 30) (365 * 2) [180] /\
  exists splits,
    rolling_split 10000 (Some 30) (365 * 2) [180] false = Ok splits /\
    Z.of_nat (length splits) = 30 /\
    forall sets, In sets splits ->
      (forall i, In i (in_sample sets) -> ~ In i (out_sample sets)) /\
      (forall i j, In i (in_sample sets) -> In j (out_sample sets) -> i < j) /\
      (forall time : Z -> Z,
         (forall a b, a < b -> time a < time b) ->
         forall i j, In i (in_sample sets) -> In j (out_sample sets) -> time i < time j) /\
      Z.of_nat (length (in_sample sets)) + Z.of_nat (length (out_sample sets))
        = 365 * 2 /\
      (forall i, In i (in_sample sets ++ out_sample sets) -> 0 <= i < 10000).
Proof.
  assert (V : valid_configuration 10000 (Some 30) (365 * 2) [180]).
  { unfold valid_configuration. cbn. repeat split; try lia. repeat constructor. }
  split; [exact V|].
  exact (rolling_split_in_then_out 10000 (Some 30) (365 * 2) [180] false V).
Defined.

(** C5.  On a series with fewer observations than [window_len] the
    splitter fails with [InsufficientDataError]; no split, truncated or
    not, is returned, and the notebook's unpacking of the two frames fails
    with it. *)
Theorem rolling_split_short_series (price : PriceSeries) (n : option Z)
    (window_len : Z) (set_lens : list Z) (left_to_right : bool) :
  Z.of_nat (length price) < window_len ->
  rolling_split (Z.of_nat (length price)) n window_len set_lens left_to_right
    = Raise InsufficientDataError /\
  in_out_prices price n window_len set_lens left_to_right = Raise InsufficientDataError.
Proof.
  intros Hshort. unfold in_out_prices.
  assert (H : rolling_split (Z.of_nat (length price)) n window_len set_lens left_to_right
              = Raise InsufficientDataError).
  { unfold rolling_split.
    replace (window_len <=? 0) with false by (symmetry; apply Z.leb_gt; lia).
    replace (Z.of_nat (length price) <? window_len) with true
      by (symmetry; apply Z.ltb_lt; lia).
    reflexivity. }
  rewrite H. split; reflexivity.
Qed.

Lemma rolling_split_short_series_witness :
  Z.of_nat (length [one; two; one; half]) < 5 /\
  rolling_split (Z.of_nat (length [one; two; one; half])) (Some 1) 5 [1] false
    = Raise InsufficientDataError /\
  in_out_prices [one; two; one; half] (Some 1) 5 [1] false = Raise InsufficientDataError.
Proof.
  assert (H : Z.of_nat (length [one; two; one; half]) < 5) by (cbn; lia).
  split; [exact H|].
  exact (rolling_split_short_series [one; two; one; half] (Some 1) 5 [1] false H).
Defined.

End SplitterProperties.

(** ** Out-of-sample validation *)

Module ValidationFacts.
Import Score Pandas BestSelector ParameterGrid RollingSplitter WalkForward.

Lemma enumerate_from_nth_error {A : Type} (l : list A) : forall a k,
  nth_error (enumerate_from a l) k
  = option_map (pair (a + Z.of_nat k)) (nth_error l k).
Proof.
  induction l as [|x l IH]; intros a k; destruct k as [|k];
    cbn [enumerate_from nth_error option_map].
  - reflexivity.
  - reflexivity.
  - now rewrite Z.add_0_r.
  - rewrite IH. destruct (nth_error l k); cbn; [|reflexivity]. do 2 f_equal. lia.
Qed.

Lemma enumerate_from_fst {A : Type} (l : list A) : forall a,
  map fst (enumerate_from a l) = map (fun i => a + Z.of_nat i) (seq 0 (length l)).
Proof.
  induction l as [|x l IH]; intros a; cbn; [reflexivity|].
  rewrite IH, <- seq_shift, map_map. f_equal; [lia|].
  apply map_ext. intros i. lia.
Qed.

Lemma set_frame_length price splits j : length (set_frame price splits j) = length splits.
Proof.
  unfold set_frame. rewrite length_map.
  rewrite <- (length_map fst), enumerate_from_fst, length_map, length_seq. reflexivity.
Qed.

Lemma set_frame_fst price splits j :
  map fst (set_frame price splits j) = map Z.of_nat (seq 0 (length splits)).
Proof.
  unfold set_frame. rewrite map_map. cbn [fst].
  change (map (fun x => fst x) (enumerate_from 0 splits))
    with (map fst (enumerate_from 0 splits)).
  rewrite enumerate_from_fst. apply map_ext. intros; lia.
Qed.

Lemma set_frame_nth_error price splits j k sets :
  nth_error splits k = Some sets ->
  nth_error (set_frame price splits j) k = Some (Z.of_nat k, iloc price (nth j sets [])).
Proof.
  intros H. unfold set_frame.
  rewrite nth_error_map, enumerate_from_nth_error, H. reflexivity.
Qed.

(** A segment read through [iloc] depends on the observations at its own
    indices only. *)
Lemma iloc_ext price price' idxs :
  (forall i, In i idxs ->
     nth (Z.to_nat i) price' S754_nan = nth (Z.to_nat i) price S754_nan) ->
  iloc price' idxs = iloc price idxs.
Proof.
  intros H. unfold iloc. apply map_ext_in. exact H.
Qed.

Lemma broadcast_params_same params n :
  length params = n -> broadcast_params params n = Ok params.
Proof. intros <-. unfold broadcast_params. now rewrite Nat.eqb_refl. Qed.

Lemma nth_error_combine {A B : Type} : forall (l1 : list A) (l2 : list B) k a b,
  nth_error l1 k = Some a -> nth_error l2 k = Some b ->
  nth_error (combine l1 l2) k = Some (a, b).
Proof.
  induction l1 as [|x l1 IH]; intros [|y l2] [|k] a b H1 H2; try discriminate.
  - cbn in *. congruence.
  - cbn in *. now apply IH.
Qed.

Lemma combine_fst {A B : Type} : forall (l1 : list A) (l2 : list B),
  length l1 = length l2 -> map fst (combine l1 l2) = l1.
Proof.
  induction l1 as [|x l1 IH]; intros [|y l2] E; try discriminate; [reflexivity|].
  cbn in *. injection E as E. now rewrite IH.
Qed.

(** With as many windows of each kind as there are columns, there is one
    invocation per column, in the order of the columns, each with the
    windows at the position of its column. *)
Lemma per_column_spec : forall price fasts slows,
  length fasts = length price -> length slows = length price ->
  exists calls,
    per_column price fasts slows = Ok calls /\
    map fst calls = map fst price /\
    forall k kc fast slow,
      nth_error price k = Some kc -> nth_error fasts k = Some fast ->
      nth_error slows k = Some slow ->
      nth_error calls k = Some (fst kc, (snd kc, (fast, slow))).
Proof.
  intros price fasts slows Hf Hs. unfold per_column.
  rewrite (broadcast_params_same fasts _ Hf), (broadcast_params_same slows _ Hs).
  cbn [bind Ok]. eexists. split; [reflexivity|]. split.
  - rewrite map_map. cbn [fst].
    rewrite <- (map_map fst fst), combine_fst; [reflexivity|].
    rewrite length_combine. lia.
  - intros k kc fast slow Hk Hfk Hsk.
    rewrite nth_error_map.
    rewrite (nth_error_combine price (combine fasts slows) k kc (fast, slow) Hk
               (nth_error_combine fasts slows k fast slow Hfk Hsk)).
    reflexivity.
Qed.

End ValidationFacts.

(** ** The in-sample score table *)

Module EngineFacts.
Import Score Pandas BestSelector ParameterGrid RollingSplitter WalkForward.
Import TableFacts GridFacts.


Section Table.

Variable MA_run : list score -> Z -> list score.
Variable ma_crossed_above : list score -> list score -> list bool.
Variable ma_crossed_below : list score -> list score -> list bool.
Variable from_signals_sharpe_ratio : list score -> list bool -> list bool -> score.

Lemma simulate_all_params_In price ws r :
  In r (simulate_all_params MA_run ma_crossed_above ma_crossed_below
     from_signals_sharpe_ratio price ws) ->
  In (windows_of (fst r)) (run_combs_windows ws) /\
  In (split_idx (fst r)) (map fst price).
Proof.
  unfold simulate_all_params. intros H.
  apply in_flat_map in H as ([f s] & Hfs & H).
  apply in_map_iff in H as ([k column] & <- & Hk). cbn. split; [assumption|].
  change k with (fst (k, column)). now apply in_map.
Qed.


(** No label is repeated when neither a pair nor a column is. *)
Lemma simulate_all_params_table price ws :
  NoDup (run_combs_windows ws) -> NoDup (map fst price) ->
  ScoreTable (simulate_all_params MA_run ma_crossed_above ma_crossed_below
     from_signals_sharpe_ratio price ws).
Proof.
  intros Hgrid Hcols. unfold ScoreTable, simulate_all_params, index.
  induction Hgrid as [|[f s] grid Hnotin Hgrid IH]; cbn; [constructor|].
  rewrite map_app. apply NoDup_app; [|exact IH|].
  - rewrite map_map. cbn.
    rewrite <- (map_map fst (fun k => mkLabel f s k)).
    apply NoDup_map_NoDup_ForallPairs; [|assumption].
    intros a b _ _ E. now injection E.
  - intros l Hl Hl'. apply in_map_iff in Hl as (r & <- & Hr).
    apply in_map_iff in Hr as (kc & <- & _). cbn in Hl'.
    apply in_map_iff in Hl' as (r' & E & Hr').
    apply in_flat_map in Hr' as ([f' s'] & Hfs' & Hr').
    apply in_map_iff in Hr' as (kc' & <- & _). cbn in E.
    injection E as -> -> _. contradiction.
Qed.

Lemma insert_key_present k ks :
  StronglySorted Z.lt ks -> In k ks -> insert_key k ks = ks.
Proof.
  induction 1 as [|k' r Hr IH Hall]; intros Hin; [destruct Hin|].
  rewrite Forall_forall in Hall. cbn.
  destruct (k <? k') eqn:E1.
  - apply Z.ltb_lt in E1. destruct Hin as [->|Hin]; [lia|].
    specialize (Hall k Hin). lia.
  - destruct (k =? k') eqn:E2; [reflexivity|].
    apply Z.eqb_neq in E2. destruct Hin as [->|Hin]; [congruence|].
    now rewrite IH.
Qed.

Lemma fold_insert_sorted ks :
  StronglySorted Z.lt ks -> fold_right insert_key [] ks = ks.
Proof.
  induction 1 as [|k r Hr IH Hall]; cbn; [reflexivity|].
  rewrite IH. destruct r as [|k' r]; [reflexivity|].
  inversion Hall as [|? ? Hk _]; subst. cbn.
  replace (k <? k') with true by (symmetry; now apply Z.ltb_lt). reflexivity.
Qed.

Lemma fold_insert_present ks l :
  StronglySorted Z.lt ks -> (forall k, In k l -> In k ks) ->
  fold_right insert_key ks l = ks.
Proof.
  intros Hs. induction l as [|k l IH]; intros Hin; cbn; [reflexivity|].
  rewrite IH by (intros; apply Hin; now right).
  apply insert_key_present; [assumption|]. apply Hin. now left.
Qed.

(** The splits of the table are the columns of the frame. *)
Lemma simulate_all_params_group_keys price ws :
  StronglySorted Z.lt (map fst price) -> run_combs_windows ws <> [] ->
  group_keys (simulate_all_params MA_run ma_crossed_above ma_crossed_below
     from_signals_sharpe_ratio price ws) = map fst price.
Proof.
  intros Hs Hne. unfold group_keys, simulate_all_params.
  induction (run_combs_windows ws) as [|[f s] grid IH]; [congruence|].
  cbn [flat_map]. rewrite map_app, fold_right_app, map_map. cbn [fst snd split_idx].
  change (map (fun x : Z * list score => fst x) price) with (map fst price).
  destruct grid as [|fs grid].
  - cbn [flat_map map fold_right]. now apply fold_insert_sorted.
  - rewrite IH by discriminate. apply fold_insert_present; auto.
Qed.

End Table.

Lemma seq_of_nat_sorted n : forall a,
  StronglySorted Z.lt (map Z.of_nat (seq a n)).
Proof.
  induction n as [|n IH]; intros a; cbn; constructor; [apply IH|].
  apply Forall_forall. intros x Hx. apply in_map_iff in Hx as (i & <- & Hi).
  apply in_seq in Hi. lia.
Qed.

Lemma in_out_prices_frames price n window_len set_lens ltr in_price out_price :
  in_out_prices price n window_len set_lens ltr = Ok (in_price, out_price) ->
  exists splits,
    rolling_split (Z.of_nat (length price)) n window_len set_lens ltr = Ok splits /\
    in_price = set_frame price splits 0 /\ out_price = set_frame price splits 1.
Proof.
  unfold in_out_prices.
  destruct (rolling_split _ n window_len set_lens ltr) as [e|splits]; [discriminate|].
  cbn. destruct (forallb _ splits); [|discriminate].
  intros H. injection H as <- <-. eauto.
Qed.

End EngineFacts.

Module ValidationProperties.
Import Scenarios.
Import Score Pandas BestSelector ParameterGrid RollingSplitter WalkForward.
Import ValidationFacts.

(** C9.  Out-of-sample validation runs the simulator once per split, with
    the selected pair, on the out-of-sample segment only.
    [simulate_best_params], applied to [out_price] and to the windows
    selected for the splits, makes one invocation per split and returns
    exactly one score per split, in split order.  The score of split [k] is
    the Sharpe ratio of the crossing of the two moving averages, taken with
    the pair selected for split [k] on the observations of the series at
    the out-of-sample indices of split [k]: no other pair and no
    observation of another range enters it, so it is the same on every
    series that agrees with [price] on those indices, whatever the
    observations elsewhere, those of the in-sample range included.  (The
    segments are index ranges within the series, two per split, as the
    splitter returns them.) *)
Theorem simulate_best_params_out_of_sample
    (MA_run : list score -> Z -> list score)
    (ma_crossed_above ma_crossed_below : list score -> list score -> list bool)
    (from_signals_sharpe_ratio : list score -> list bool -> list bool -> score)
    (price : PriceSeries) (splits : list (list (list Z)))
    (in_best_index : list label) :
  Forall (fun sets => length sets = 2%nat) splits ->
  Forall (fun sets => forall i, In i (out_sample sets) ->
                                0 <= i < Z.of_nat (length price)) splits ->
  length in_best_index = length splits ->
  let validate :=
    simulate_best_params MA_run ma_crossed_above ma_crossed_below
      from_signals_sharpe_ratio in
  let fasts := get_best_params in_best_index fast_window_level in
  let slows := get_best_params in_best_index slow_window_level in
  exists calls out_test_sharpe,
    per_column (set_frame price splits 1) fasts slows = Ok calls /\
    validate (set_frame price splits 1) fasts slows = Ok out_test_sharpe /\
    length calls = length splits /\
    length out_test_sharpe = length splits /\
    map split_idx (index out_test_sharpe) = map Z.of_nat (seq 0 (length splits)) /\
    forall (k : nat) (sets : list (list Z)) (l : label),
      nth_error splits k = Some sets ->
      nth_error in_best_index k = Some l ->
      let segment := iloc price (out_sample sets) in
      let fast_ma := MA_run segment (fast_window l) in
      let slow_ma := MA_run segment (slow_window l) in
      nth_error calls k
        = Some (Z.of_nat k, (segment, (fast_window l, slow_window l))) /\
      nth_error (values out_test_sharpe) k
        = Some (from_signals_sharpe_ratio segment
                  (ma_crossed_above fast_ma slow_ma)
                  (ma_crossed_below fast_ma slow_ma)) /\
      forall price' : PriceSeries,
        length price' = length price ->
        (forall i, In i (out_sample sets) ->
           nth (Z.to_nat i) price' S754_nan = nth (Z.to_nat i) price S754_nan) ->
        exists out_test_sharpe',
          validate (set_frame price' splits 1) fasts slows = Ok out_test_sharpe' /\
          nth_error (values out_test_sharpe') k = nth_error (values out_test_sharpe) k.
Proof.
  intros Htwo _ Hlen validate fasts slows.
  assert (Hfl : forall p, length fasts = length (set_frame p splits 1)).
  { intros p. unfold fasts, get_best_params, get_level_values.
    now rewrite length_map, set_frame_length. }
  assert (Hsl : forall p, length slows = length (set_frame p splits 1)).
  { intros p. unfold slows, get_best_params, get_level_values.
    now rewrite length_map, set_frame_length. }
  destruct (per_column_spec (set_frame price splits 1) fasts slows (Hfl price) (Hsl price))
    as (calls & Hcalls & Hfst & Hnth).
  assert (Hn : length calls = length splits).
  { rewrite <- (length_map fst calls), Hfst, length_map. apply set_frame_length. }
  eexists calls, _. split; [exact Hcalls|]. split.
  { unfold validate, simulate_best_params. rewrite Hcalls. reflexivity. }
  split; [exact Hn|].
  split; [now rewrite length_map|].
  split.
  { unfold index. rewrite !map_map. rewrite <- set_frame_fst with (price := price) (j := 1%nat).
    rewrite <- Hfst. apply map_ext. intros [k0 [column [fast slow]]]. reflexivity. }
  intros k sets l Hsets Hl segment fast_ma slow_ma.
  assert (Hout : nth 1 sets [] = out_sample sets).
  { rewrite Forall_forall in Htwo.
    pose proof (Htwo sets (nth_error_In _ _ Hsets)) as H2.
    destruct sets as [|a [|b [|c sets]]]; try discriminate. reflexivity. }
  assert (Hfk : nth_error fasts k = Some (fast_window l)).
  { unfold fasts, get_best_params, get_level_values. now rewrite nth_error_map, Hl. }
  assert (Hsk : nth_error slows k = Some (slow_window l)).
  { unfold slows, get_best_params, get_level_values. now rewrite nth_error_map, Hl. }
  specialize (Hnth k _ _ _ (set_frame_nth_error price splits 1 k sets Hsets) Hfk Hsk).
  cbn [fst snd] in Hnth. rewrite Hout in Hnth.
  split; [exact Hnth|]. split.
  { unfold values. rewrite !nth_error_map, Hnth. reflexivity. }
  intros price' _ Hagree.
  destruct (per_column_spec (set_frame price' splits 1) fasts slows (Hfl price') (Hsl price'))
    as (calls' & Hcalls' & _ & Hnth').
  specialize (Hnth' k _ _ _ (set_frame_nth_error price' splits 1 k sets Hsets) Hfk Hsk).
  cbn [fst snd] in Hnth'. rewrite Hout in Hnth'.
  rewrite (iloc_ext price price' (out_sample sets) Hagree) in Hnth'.
  eexists. split.
  { unfold validate, simulate_best_params. rewrite Hcalls'. reflexivity. }
  unfold values. rewrite !nth_error_map, Hnth, Hnth'. reflexivity.
Qed.

Lemma simulate_best_params_out_of_sample_witness :
  Forall (fun sets => length sets = 2%nat) demo_splits /\
  Forall (fun sets => forall i, In i (out_sample sets) ->
                                0 <= i < Z.of_nat (length demo_price)) demo_splits /\
  length demo_best_index = length demo_splits /\
  exists calls out_test_sharpe,
    per_column (set_frame demo_price demo_splits 1)
      (get_best_params demo_best_index fast_window_level)
      (get_best_params demo_best_index slow_window_level) = Ok calls /\
    simulate_best_params stub_MA_run stub_crossed stub_crossed stub_sharpe
      (set_frame demo_price demo_splits 1)
      (get_best_params demo_best_index fast_window_level)
      (get_best_params demo_best_index slow_window_level) = Ok out_test_sharpe /\
    length calls = 2%nat /\
    length out_test_sharpe = 2%nat /\
    map split_idx (index out_test_sharpe) = [0; 1] /\
    nth_error calls 1%nat = Some (1, ([two], (10, 30))) /\
    nth_error (values out_test_sharpe) 1%nat = Some two.
Proof.
  assert (H2 : Forall (fun sets => length sets = 2%nat) demo_splits).
  { repeat constructor. }
  assert (Hr : Forall (fun sets => forall i, In i (out_sample sets) ->
                         0 <= i < Z.of_nat (length demo_price)) demo_splits).
  { unfold demo_splits, out_sample. cbn [last length demo_price].
    constructor; [|constructor; [|constructor]];
      intros i [<-|[]]; lia. }
  assert (Hlen : length demo_best_index = length demo_splits) by reflexivity.
  repeat (split; [assumption|]).
  destruct (simulate_best_params_out_of_sample
              stub_MA_run stub_crossed stub_crossed stub_sharpe
              demo_price demo_splits demo_best_index H2 Hr Hlen)
    as (calls & out & Hc & Ho & Hnc & Hno & Hidx & Hk).
  destruct (Hk 1%nat [[5; 6; 7; 8]; [9]] (mkLabel 10 30 1) eq_refl eq_refl)
    as (Hcall & Hscore & _).
  exists calls, out. repeat (split; [assumption|]). exact Hscore.
Defined.

End ValidationProperties.

(** ** Alignment of the two score vectors *)

Module AlignmentProperties.
Import Scenarios.
Import Score Pandas BestSelector ParameterGrid WalkForward.
Import TableFacts SelectionFacts ValidationFacts.

(** C10, in the form that holds of the code.  On a score table in which
    every split has at least one non-NaN entry, [get_best_index] returns an
    index with exactly one entry per split of the table, in ascending order
    of [split_idx].  The in-sample best scores looked up with that index
    and the out-of-sample scores of [simulate_best_params], run on a frame
    with one column per split of the table, then have the same length and
    the same split at every position.  (A split without any non-NaN entry
    makes the call fail, so no index is returned then.) *)
Theorem get_best_index_one_per_split
    (MA_run : list score -> Z -> list score)
    (ma_crossed_above ma_crossed_below : list score -> list score -> list bool)
    (from_signals_sharpe_ratio : list score -> list bool -> list bool -> score)
    (in_sharpe : Series) (higher_better : bool) (out_price : DataFrame) :
  ScoreTable in_sharpe ->
  all_splits_valid in_sharpe ->
  map fst out_price = group_keys in_sharpe ->
  exists in_best_index best_rows out_test_sharpe,
    get_best_index in_sharpe higher_better = Ok in_best_index /\
    map split_idx in_best_index = group_keys in_sharpe /\
    StronglySorted Z.lt (map split_idx in_best_index) /\
    (forall k, In k (map split_idx in_best_index)
               <-> exists r, In r in_sharpe /\ split_idx (fst r) = k) /\
    getitem in_sharpe (map Some in_best_index) = Ok best_rows /\
    index best_rows = in_best_index /\
    simulate_best_params MA_run ma_crossed_above ma_crossed_below
      from_signals_sharpe_ratio out_price
      (get_best_params in_best_index fast_window_level)
      (get_best_params in_best_index slow_window_level) = Ok out_test_sharpe /\
    length (values best_rows) = length (values out_test_sharpe) /\
    map split_idx (index out_test_sharpe) = map split_idx (index best_rows).
Proof.
  intros Htable Hvalid Hcols.
  destruct (get_best_index_ok higher_better in_sharpe Hvalid)
    as (ls & idx & Hget & Hks & Hfa & _ & Hidx).
  specialize (Hidx Htable). subst ls.
  assert (Hin : forall l, In l idx -> In l (index in_sharpe)).
  { intros l Hl. rewrite Forall_forall in Hfa. destruct (Hfa l Hl) as (v & Hfb).
    apply first_best_in_split_In in Hfb. unfold index.
    change l with (fst (l, v)). now apply in_map. }
  destruct (getitem_unique in_sharpe idx Htable Hin) as (best_rows & Hrows & Hrows_idx).
  assert (Hlen : length idx = length out_price).
  { rewrite <- (length_map split_idx idx), Hks, <- Hcols, length_map. reflexivity. }
  destruct (per_column_spec out_price
              (get_best_params idx fast_window_level)
              (get_best_params idx slow_window_level))
    as (calls & Hcalls & Hfst & _).
  { unfold get_best_params, get_level_values. now rewrite length_map. }
  { unfold get_best_params, get_level_values. now rewrite length_map. }
  exists idx, best_rows. eexists.
  split; [exact Hget|]. split; [exact Hks|].
  split; [rewrite Hks; apply group_keys_sorted|].
  split; [intros k; rewrite Hks; apply group_keys_In|].
  split; [exact Hrows|]. split; [exact Hrows_idx|]. split.
  { unfold simulate_best_params. rewrite Hcalls. reflexivity. }
  assert (Hsplits : map split_idx
            (index (map (fun call : Z * (list score * (Z * Z)) =>
                           let '(k, (column, (fast, slow))) := call in
                           (mkLabel fast slow k,
                            crossover_sharpe MA_run ma_crossed_above ma_crossed_below
                              from_signals_sharpe_ratio (column, (fast, slow)))) calls))
          = map fst calls).
  { unfold index. rewrite !map_map. apply map_ext.
    intros [k [column [fast slow]]]. reflexivity. }
  split.
  - unfold values. rewrite !length_map.
    rewrite <- (length_map fst calls), Hfst, length_map, <- Hlen.
    rewrite <- Hrows_idx. unfold index. now rewrite length_map.
  - rewrite Hsplits, Hfst, Hcols, Hrows_idx, Hks. reflexivity.
Qed.

Lemma get_best_index_one_per_split_witness :
  ScoreTable sharpe_two_splits /\
  all_splits_valid sharpe_two_splits /\
  map fst (set_frame demo_price demo_splits 1) = group_keys sharpe_two_splits /\
  exists in_best_index,
    get_best_index sharpe_two_splits true = Ok in_best_index /\
    map split_idx in_best_index = [0; 1].
Proof.
  assert (T : ScoreTable sharpe_two_splits).
  { unfold ScoreTable. cbn. repeat constructor; cbn; intuition discriminate. }
  assert (V : all_splits_valid sharpe_two_splits).
  { apply all_splits_validb_spec. reflexivity. }
  assert (C : map fst (set_frame demo_price demo_splits 1) = group_keys sharpe_two_splits)
    by reflexivity.
  repeat (split; [assumption|]).
  destruct (get_best_index_one_per_split stub_MA_run stub_crossed stub_crossed stub_sharpe
              sharpe_two_splits true (set_frame demo_price demo_splits 1) T V C)
    as (idx & _ & _ & Hget & Hks & _).
  exists idx. split; [exact Hget|exact Hks].
Defined.

(** In the specification's wording C10 holds of every score table.  On
    [sharpe_nan_split], whose split 1 has no score, no index comes back. *)
Lemma get_best_index_nan_table_no_index :
  ~ (forall (s : Series) (hb : bool),
       ScoreTable s ->
       exists idx, get_best_index s hb = Ok idx /\ map split_idx idx = group_keys s).
Proof.
  intros H.
  destruct (H sharpe_nan_split true) as (idx & Hget & _).
  - unfold ScoreTable. cbn. repeat constructor; cbn; intuition discriminate.
  - vm_compute in Hget. discriminate.
Qed.

End AlignmentProperties.

(** ** The significance test *)

Module SignificanceProperties.
Import Score ScoreFacts Significance Scenarios.

(** C6, in the form that holds of the code.  The comparison makes no
    alignment, length or emptiness check and has no failure of its own:
    whatever the lengths of the two vectors, they are handed to the
    two-sample test and its statistic and p-value come back with the
    decision.  (In the notebook the two vectors have equal length by
    construction, one entry per split.) *)
Theorem significance_unchecked
    (ttest_ind : list score -> list score -> alternative -> score * score)
    (in_sample_best out_sample_test : list score) :
  exists c,
    significance ttest_ind in_sample_best out_sample_test = Ok c /\
    (statistic c, p_value c) = ttest_ind out_sample_test in_sample_best greater.
Proof.
  unfold significance.
  destruct (ttest_ind out_sample_test in_sample_best greater) as [t p].
  eexists. split; reflexivity.
Qed.

(** In the specification's wording C6 has the comparison fail on vectors
    of unequal length and on empty ones.  With a test that answers every pair
    of samples, it returns a result for both. *)
Lemma significance_accepts_misaligned :
  ~ (forall (ttest_ind : list score -> list score -> alternative -> score * score)
            (a b : list score),
       length a <> length b \/ a = [] \/ b = [] ->
       exists e, significance ttest_ind a b = Raise e).
Proof.
  intros H.
  destruct (H (fun _ _ _ => (one, half)) [one] [one; two]) as (e & He).
  - left. discriminate.
  - discriminate.
Qed.

(** C7.  The test is run with the out-of-sample scores as the first sample
    and the alternative ["greater"], that is, with the out-of-sample mean
    hypothesised to be the greater one, and the decision is the comparison
    of its p-value with 0.05: it is true exactly when the p-value is above
    the threshold (the null is not rejected, the evidence against the
    strategy generalising) and false when the p-value is at most 0.05 or is
    NaN. *)
Theorem significance_decision
    (ttest_ind : list score -> list score -> alternative -> score * score)
    (in_sample_best out_sample_test : list score) :
  exists c,
    significance ttest_ind in_sample_best out_sample_test = Ok c /\
    (statistic c, p_value c) = ttest_ind out_sample_test in_sample_best greater /\
    threshold = S754_finite false 7205759403792794 (-57) /\
    (decision c = true <-> SFcompare (p_value c) threshold = Some Gt) /\
    (decision c = false <->
       is_nan (p_value c) = true \/ SFleb (p_value c) threshold = true).
Proof.
  unfold significance.
  destruct (ttest_ind out_sample_test in_sample_best greater) as [t p].
  eexists. split; [reflexivity|]. split; [reflexivity|]. split; [reflexivity|].
  cbn [decision p_value]. unfold gt, SFltb, SFleb.
  assert (Ht : is_nan threshold = false) by reflexivity.
  generalize dependent threshold. intros th Ht.
  rewrite (SFcompare_swap th p).
  destruct (SFcompare p th) as [[| |]|] eqn:E; cbn.
  - split; [split; discriminate|]. split; auto.
  - split; [split; discriminate|]. split; auto.
  - split; [split; reflexivity|]. split; [discriminate|].
    intros [Hn|Hn]; [|discriminate]. destruct p; discriminate.
  - split; [split; discriminate|]. split; [|reflexivity].
    intros _. left. apply SFcompare_none in E as [E|E]; [assumption|congruence].
Qed.

End SignificanceProperties.

(** ** The cells end to end *)

Module PipelineFacts.
Import Scenarios.
Import Score Pandas BestSelector ParameterGrid RollingSplitter WalkForward.
Import TableFacts SelectionFacts GridFacts ValidationFacts EngineFacts.

(** With increasing candidate windows, at least two of them, and a usable
    score in every split of the in-sample table, the cells from the split
    to the two score vectors all succeed and both vectors have one entry
    per split. *)
Lemma walk_forward_vectors
    (MA_run : list score -> Z -> list score)
    (ma_crossed_above ma_crossed_below : list score -> list score -> list bool)
    (from_signals_sharpe_ratio : list score -> list bool -> list bool -> score)
    (price : PriceSeries) (n : option Z) (window_len : Z) (set_lens ws : list Z)
    (in_price out_price : DataFrame) :
  in_out_prices price n window_len set_lens false = Ok (in_price, out_price) ->
  StronglySorted Z.lt ws -> (2 <= length ws)%nat ->
  all_splits_valid
    (simulate_all_params MA_run ma_crossed_above ma_crossed_below
       from_signals_sharpe_ratio in_price ws) ->
  exists v,
    walk_forward MA_run ma_crossed_above ma_crossed_below from_signals_sharpe_ratio
      price n window_len set_lens ws = Ok v /\
    length (in_sample_best v) = length in_price /\
    length (out_sample_test v) = length in_price.
Proof.
  intros Hio Hws Hk Hvalid.
  destruct (in_out_prices_frames _ _ _ _ _ _ _ Hio) as (splits & _ & Ein & Eout).
  set (in_sharpe := simulate_all_params MA_run ma_crossed_above ma_crossed_below
                      from_signals_sharpe_ratio in_price ws) in *.
  assert (Hcols : map fst in_price = map Z.of_nat (seq 0 (length splits)))
    by (rewrite Ein; apply set_frame_fst).
  assert (Hcols' : map fst out_price = map fst in_price)
    by (rewrite Hcols, Eout; apply set_frame_fst).
  assert (Hsorted : StronglySorted Z.lt (map fst in_price))
    by (rewrite Hcols; apply seq_of_nat_sorted).
  assert (Hgrid : StronglySorted pair_lt (run_combs_windows ws))
    by (rewrite run_combs_windows_pairs; now apply pairs_sorted).
  assert (Hgrid_nd : NoDup (run_combs_windows ws)).
  { apply (StronglySorted_NoDup pair_lt); [|assumption].
    intros [a b] [H|[_ H]]; cbn in H; lia. }
  assert (Hne : run_combs_windows ws <> []).
  { intros E. pose proof (pairs_length ws) as Hl.
    rewrite <- run_combs_windows_pairs, E in Hl. cbn in Hl. nia. }
  assert (Htable : ScoreTable in_sharpe).
  { apply simulate_all_params_table; [assumption|].
    apply (StronglySorted_NoDup Z.lt); [intros a; lia|assumption]. }
  assert (Hkeys : group_keys in_sharpe = map fst in_price)
    by now apply simulate_all_params_group_keys.
  destruct (get_best_index_ok true in_sharpe Hvalid)
    as (ls & idx & Hget & Hks & Hfa & _ & Hidx).
  specialize (Hidx Htable). subst ls.
  assert (Hin : forall l, In l idx -> In l (index in_sharpe)).
  { intros l Hl. rewrite Forall_forall in Hfa. destruct (Hfa l Hl) as (v & Hfb).
    apply first_best_in_split_In in Hfb. unfold index.
    change l with (fst (l, v)). now apply in_map. }
  destruct (getitem_unique in_sharpe idx Htable Hin) as (best_rows & Hrows & Hrows_idx).
  assert (Hlen : length idx = length in_price).
  { rewrite <- (length_map split_idx idx), Hks, Hkeys, length_map. reflexivity. }
  assert (Hlen' : length out_price = length in_price).
  { rewrite <- (length_map fst out_price), Hcols', length_map. reflexivity. }
  destruct (per_column_spec out_price
              (get_best_params idx fast_window_level)
              (get_best_params idx slow_window_level))
    as (calls & Hcalls & Hfst & _).
  { unfold get_best_params, get_level_values. rewrite length_map. congruence. }
  { unfold get_best_params, get_level_values. rewrite length_map. congruence. }
  eexists. split.
  - unfold walk_forward. rewrite Hio, bind_Ok. cbv beta iota.
    fold in_sharpe. rewrite Hget, bind_Ok.
    unfold simulate_best_params. rewrite Hcalls, !bind_Ok.
    rewrite Hrows, bind_Ok. reflexivity.
  - cbn [in_sample_best out_sample_test]. unfold values. rewrite !length_map. split.
    + rewrite <- Hlen, <- Hrows_idx. unfold index. now rewrite length_map.
    + rewrite <- (length_map fst calls), Hfst, length_map. assumption.
Qed.

End PipelineFacts.

(** * Further properties of the notebook's functions *)

(** ** More on the order of scores *)

Module OrderFacts.
Import Score ScoreFacts.

Lemma lex3_refl a : lex3 a a = Eq.
Proof.
  destruct a as [[a1 a2] a3]. unfold lex3. now rewrite !Z.compare_refl.
Qed.

Lemma SFleb_refl a : is_nan a = false -> SFleb a a = true.
Proof.
  intros Ha. unfold SFleb. now rewrite (SFcompare_rank a a Ha Ha), lex3_refl.
Qed.

Lemma SFltb_leb a b : SFltb a b = true -> SFleb a b = true.
Proof.
  unfold SFltb, SFleb. destruct (SFcompare a b) as [[| |]|]; congruence.
Qed.

(** On non-NaN scores, [not (b < a)] is [a <= b]. *)
Lemma not_gt_leb a b :
  is_nan a = false -> is_nan b = false -> gt a b = false -> SFleb a b = true.
Proof.
  intros Ha Hb H. unfold gt, SFltb, SFleb in *.
  rewrite (SFcompare_swap a b). rewrite (SFcompare_rank b a Hb Ha) in *.
  cbn. destruct (lex3 (rank b) (rank a)); cbn; congruence.
Qed.

(** Of two non-NaN scores one is greater or they compare equal. *)
Lemma gt_total a b :
  is_nan a = false -> is_nan b = false ->
  gt a b = false -> gt b a = false -> SFeqb a b = true.
Proof.
  intros Ha Hb H1 H2. unfold gt, SFltb, SFeqb in *.
  rewrite (SFcompare_swap b a) in H1. rewrite (SFcompare_rank a b Ha Hb) in *.
  cbn in H1. destruct (lex3 (rank a) (rank b)); cbn in *; congruence.
Qed.

End OrderFacts.

(** ** More on best selection *)

Module SelectionExtras.
Import Scenarios.
Import Score ScoreFacts Pandas BestSelector Cells.
Import ScanFacts TableFacts SelectionFacts OrderFacts.

(** Every pair [get_best_index] returns holds the extreme score of its
    split: with [higher_better] no non-NaN score of the split exceeds it,
    without it none is below it. *)
Theorem get_best_index_extreme (s : Series) (higher_better : bool) :
  all_splits_valid s ->
  exists idx,
    get_best_index s higher_better = Ok idx /\
    forall l, In l idx ->
      exists v,
        In (l, v) s /\ is_nan v = false /\
        forall l' v',
          In (l', v') s -> split_idx l' = split_idx l -> is_nan v' = false ->
          if higher_better then SFleb v' v = true else SFleb v v' = true.
Proof.
  intros Hvalid.
  destruct (get_best_index_ok higher_better s Hvalid)
    as (ls & idx & Hget & _ & Hfa & Hidx & _).
  exists idx. split; [assumption|]. rewrite Forall_forall in Hfa.
  intros l Hl. apply Hidx in Hl. destruct (Hfa l Hl) as (v & Hfb).
  exists v. split; [now apply first_best_in_split_In in Hfb|].
  destruct Hfb as (pre & post & Hs & Hnan & Hpre & Hpost).
  split; [assumption|].
  intros l' v' Hin Hsplit Hnan'. rewrite Hs in Hin.
  apply in_app_or in Hin as [Hin|[E|Hin]].
  - specialize (Hpre (l', v') Hin Hsplit Hnan'). cbn in Hpre.
    destruct higher_better; cbn in Hpre; now apply SFltb_leb.
  - injection E as -> ->. destruct higher_better; now apply SFleb_refl.
  - specialize (Hpost (l', v') Hin Hsplit Hnan'). cbn in Hpost.
    destruct higher_better; cbn in Hpost; now apply not_gt_leb.
Qed.

Lemma get_best_index_extreme_witness :
  all_splits_valid sharpe_two_splits /\
  exists idx,
    get_best_index sharpe_two_splits false = Ok idx /\
    forall l, In l idx ->
      exists v,
        In (l, v) sharpe_two_splits /\ is_nan v = false /\
        forall l' v',
          In (l', v') sharpe_two_splits -> split_idx l' = split_idx l ->
          is_nan v' = false -> SFleb v v' = true.
Proof.
  assert (V : all_splits_valid sharpe_two_splits).
  { apply all_splits_validb_spec. reflexivity. }
  split; [exact V|].
  exact (get_best_index_extreme sharpe_two_splits false V).
Defined.

(** *** NaN rows *)

Lemma filter_comm {A : Type} (f g : A -> bool) (l : list A) :
  filter f (filter g l) = filter g (filter f l).
Proof.
  induction l as [|x l IH]; cbn; [reflexivity|].
  destruct (f x) eqn:Ef, (g x) eqn:Eg; cbn; rewrite ?Ef, ?Eg, IH; reflexivity.
Qed.

Lemma group_dropna s k : group (dropna s) k = dropna (group s k).
Proof. unfold group, dropna. apply filter_comm. Qed.

(** The scan does not see NaN rows. *)
Lemma arg_scan_dropna better g : arg_scan better (dropna g) = arg_scan better g.
Proof.
  unfold arg_scan. generalize (@None (label * score)) as acc.
  induction g as [|r g IH]; intros acc; [reflexivity|].
  unfold dropna in *. cbn [filter fold_left].
  destruct (is_nan (snd r)) eqn:E; cbn [negb fold_left].
  - rewrite IH. f_equal. unfold arg_step. now rewrite E.
  - apply IH.
Qed.

Lemma winner_dropna better s k : winner better (dropna s) k = winner better s k.
Proof. unfold winner. now rewrite group_dropna, arg_scan_dropna. Qed.

(** Two strictly increasing lists with the same elements are equal. *)
Lemma sorted_ext (l1 : list Z) : forall l2,
  StronglySorted Z.lt l1 -> StronglySorted Z.lt l2 ->
  (forall x, In x l1 <-> In x l2) -> l1 = l2.
Proof.
  induction l1 as [|a l1 IH]; intros [|b l2] H1 H2 Hext.
  - reflexivity.
  - exfalso. apply (Hext b). now left.
  - exfalso. apply (Hext a). now left.
  - inversion H1 as [|? ? H1' Ha]; subst. inversion H2 as [|? ? H2' Hb]; subst.
    rewrite Forall_forall in Ha, Hb.
    assert (a = b).
    { destruct (proj1 (Hext a) (or_introl eq_refl)) as [->|Hin]; [reflexivity|].
      destruct (proj2 (Hext b) (or_introl eq_refl)) as [->|Hin']; [reflexivity|].
      specialize (Ha b Hin'). specialize (Hb a Hin). lia. }
    subst b. f_equal. apply IH; trivial.
    intros x. split; intros Hx.
    + destruct (proj1 (Hext x) (or_intror Hx)) as [->|]; trivial.
      specialize (Ha x Hx). lia.
    + destruct (proj2 (Hext x) (or_intror Hx)) as [->|]; trivial.
      specialize (Hb x Hx). lia.
Qed.

Lemma dropna_In s r : In r (dropna s) <-> In r s /\ is_nan (snd r) = false.
Proof. unfold dropna. rewrite filter_In, negb_true_iff. reflexivity. Qed.

Lemma group_keys_dropna s : all_splits_valid s -> group_keys (dropna s) = group_keys s.
Proof.
  intros Hvalid. apply sorted_ext; try apply group_keys_sorted.
  intros k. rewrite !group_keys_In. split.
  - intros (r & Hr & Hk). apply dropna_In in Hr as [Hr _]. eauto.
  - intros (r & Hr & Hk). destruct (Hvalid r Hr) as (r' & Hr' & Hk' & Hnan).
    exists r'. split; [now apply dropna_In|congruence].
Qed.

Lemma dropna_table s : ScoreTable s -> ScoreTable (dropna s).
Proof.
  unfold ScoreTable, index, dropna. induction s as [|r s IH]; cbn; intros Hnd.
  - constructor.
  - inversion Hnd as [|? ? Hnotin Hnd']; subst.
    destruct (negb (is_nan (snd r))); [|now apply IH].
    cbn. constructor; [|now apply IH].
    intros Hin. apply Hnotin. apply in_map_iff in Hin as (r' & E & Hr').
    apply filter_In in Hr' as [Hr' _]. rewrite <- E. now apply in_map.
Qed.

Lemma dropna_valid s : all_splits_valid (dropna s).
Proof.
  intros r Hr. exists r. split; [assumption|]. split; [reflexivity|].
  now apply dropna_In in Hr.
Qed.

(** The winners of a table whose splits all have a score. *)
Lemma get_best_index_winners s hb :
  ScoreTable s -> all_splits_valid s ->
  exists ls,
    map (winner (better_of hb) s) (group_keys s) = map Some ls /\
    get_best_index s hb = Ok ls.
Proof.
  intros Htable Hvalid.
  destruct (winners_valid hb s (group_keys s)) as (ls & Hmap & _ & Hfa).
  { intros k Hk. apply group_keys_In in Hk as (r & Hr & <-). now apply Hvalid. }
  exists ls. split; [assumption|].
  assert (Hin : forall l, In l ls -> In l (index s)).
  { intros l Hl. rewrite Forall_forall in Hfa. destruct (Hfa l Hl) as (v & Hfb).
    apply first_best_in_split_In in Hfb. unfold index.
    change l with (fst (l, v)). now apply in_map. }
  destruct (getitem_unique s ls Htable Hin) as (best & Hbest & Hidx).
  rewrite get_best_index_eq, Hmap, Hbest, bind_Ok. now rewrite Hidx.
Qed.

(** NaN scores play no part in the selection: as long as every split has a
    score, dropping the NaN rows first gives the same index. *)
Theorem get_best_index_dropna (s : Series) (higher_better : bool) :
  ScoreTable s -> all_splits_valid s ->
  get_best_index (dropna s) higher_better = get_best_index s higher_better.
Proof.
  intros Htable Hvalid.
  destruct (get_best_index_winners s higher_better Htable Hvalid) as (ls & Hmap & ->).
  destruct (get_best_index_winners (dropna s) higher_better
              (dropna_table s Htable) (dropna_valid s)) as (ls' & Hmap' & ->).
  rewrite (group_keys_dropna s Hvalid) in Hmap'.
  rewrite (map_ext _ _ (winner_dropna (better_of higher_better) s)) in Hmap'.
  rewrite Hmap in Hmap'. f_equal.
  clear - Hmap'. revert ls' Hmap'.
  induction ls as [|l ls IH]; intros [|l' ls'] E; try discriminate; [reflexivity|].
  cbn in E. injection E as -> E. f_equal. now apply IH.
Qed.

Lemma get_best_index_dropna_witness :
  ScoreTable sharpe_two_splits /\ all_splits_valid sharpe_two_splits /\
  get_best_index (dropna sharpe_two_splits) true = get_best_index sharpe_two_splits true.
Proof.
  assert (T : ScoreTable sharpe_two_splits).
  { unfold ScoreTable. cbn. repeat constructor; cbn; intuition discriminate. }
  assert (V : all_splits_valid sharpe_two_splits).
  { apply all_splits_validb_spec. reflexivity. }
  split; [exact T|]. split; [exact V|].
  exact (get_best_index_dropna sharpe_two_splits true T V).
Defined.

(** After [dropna] the selection cannot fail: it returns one pair for each
    split that still has a row, in ascending order of the splits, and the
    splits that held only NaN scores are absent from the index. *)
Theorem get_best_index_after_dropna (s : Series) (higher_better : bool) :
  ScoreTable s ->
  exists idx,
    get_best_index (dropna s) higher_better = Ok idx /\
    StronglySorted Z.lt (map split_idx idx) /\
    forall k, In k (map split_idx idx) <-> valid_split s k.
Proof.
  intros Htable.
  destruct (get_best_index_ok higher_better (dropna s) (dropna_valid s))
    as (ls & idx & Hget & Hks & _ & _ & Hidx).
  specialize (Hidx (dropna_table s Htable)). subst ls.
  exists idx. split; [assumption|]. rewrite Hks. split; [apply group_keys_sorted|].
  intros k. rewrite group_keys_In. split.
  - intros (r & Hr & Hk). apply dropna_In in Hr as [Hr Hnan]. exists r. auto.
  - intros (r & Hr & Hk & Hnan). exists r. split; [now apply dropna_In|assumption].
Qed.

Lemma get_best_index_after_dropna_witness :
  ScoreTable sharpe_nan_split /\
  get_best_index sharpe_nan_split true = Raise KeyError /\
  exists idx,
    get_best_index (dropna sharpe_nan_split) true = Ok idx /\
    StronglySorted Z.lt (map split_idx idx) /\
    forall k, In k (map split_idx idx) <-> valid_split sharpe_nan_split k.
Proof.
  assert (T : ScoreTable sharpe_nan_split).
  { unfold ScoreTable. cbn. repeat constructor; cbn; intuition discriminate. }
  split; [exact T|]. split; [reflexivity|].
  exact (get_best_index_after_dropna sharpe_nan_split true T).
Defined.

(** *** Row order *)

Lemma better_of_irrefl hb a : better_of hb a a = false.
Proof.
  destruct (better_of hb a a) eqn:E; [|reflexivity].
  now rewrite (better_of_asym hb a a E) in E.
Qed.

Lemma better_of_total hb a b :
  is_nan a = false -> is_nan b = false ->
  better_of hb a b = false -> better_of hb b a = false -> SFeqb a b = true.
Proof.
  intros Ha Hb H1 H2. destruct hb; cbn in *.
  - now apply gt_total.
  - apply gt_total; assumption.
Qed.

(** Nothing in its split beats the first best row. *)
Lemma first_best_in_split_top better s l v :
  (forall a b, better a b = true -> better b a = false) ->
  first_best_in_split better s l v ->
  forall l' v', In (l', v') s -> split_idx l' = split_idx l -> is_nan v' = false ->
                better v' v = false.
Proof.
  intros Hasym (pre & post & -> & Hnan & Hpre & Hpost) l' v' Hin Hsplit Hnan'.
  apply in_app_or in Hin as [Hin|[E|Hin]].
  - apply Hasym. exact (Hpre (l', v') Hin Hsplit Hnan').
  - injection E as -> ->. destruct (better v' v') eqn:E; [|reflexivity].
    now rewrite (Hasym _ _ E) in E.
  - exact (Hpost (l', v') Hin Hsplit Hnan').
Qed.

Lemma winners_agree (P P' : label -> Prop) (ls : list label) : forall ls',
  map split_idx ls = map split_idx ls' ->
  Forall P ls -> Forall P' ls' ->
  (forall l l', P l -> P' l' -> split_idx l = split_idx l' -> l = l') ->
  ls = ls'.
Proof.
  induction ls as [|l ls IH]; intros [|l' ls'] E H H' Hsame; try discriminate.
  - reflexivity.
  - cbn in E. injection E as E0 E.
    inversion H as [|? ? Hl Hls]; subst. inversion H' as [|? ? Hl' Hls']; subst.
    f_equal; [now apply Hsame|now apply IH].
Qed.

(** The order of the rows matters for ties only: on a table without ties
    inside a split, every rearrangement of the rows selects the same
    pairs. *)
Theorem get_best_index_row_order (s s' : Series) (higher_better : bool) :
  Permutation s s' -> ScoreTable s -> all_splits_valid s -> no_ties s ->
  get_best_index s' higher_better = get_best_index s higher_better.
Proof.
  intros Hperm Htable Hvalid Hties.
  assert (Htable' : ScoreTable s').
  { unfold ScoreTable, index in *.
    eapply Permutation_NoDup; [apply Permutation_map, Hperm|assumption]. }
  assert (Hvalid' : all_splits_valid s').
  { intros r Hr. apply (Permutation_in _ (Permutation_sym Hperm)) in Hr.
    destruct (Hvalid r Hr) as (r' & Hr' & E & Hnan).
    exists r'. split; [now apply (Permutation_in _ Hperm)|auto]. }
  destruct (get_best_index_ok higher_better s Hvalid)
    as (ls & idx & -> & Hks & Hfa & _ & Hidx).
  destruct (get_best_index_ok higher_better s' Hvalid')
    as (ls' & idx' & -> & Hks' & Hfa' & _ & Hidx').
  rewrite (Hidx Htable), (Hidx' Htable'). f_equal.
  assert (Hkeys : group_keys s' = group_keys s).
  { apply sorted_ext; try apply group_keys_sorted.
    intros k. rewrite !group_keys_In.
    split; intros (r & Hr & Hk); exists r; split; trivial.
    - now apply (Permutation_in _ (Permutation_sym Hperm)).
    - now apply (Permutation_in _ Hperm). }
  apply (winners_agree _ _ ls' ls) with (3 := Hfa) (2 := Hfa'); [congruence|].
  intros l' l (v' & Hfb') (v & Hfb) Hsplit.
  pose proof (first_best_in_split_In _ _ _ _ Hfb) as Hin.
  pose proof (first_best_in_split_In _ _ _ _ Hfb') as Hin'.
  assert (Hnan : is_nan v = false) by now destruct Hfb as (? & ? & _ & ? & _).
  assert (Hnan' : is_nan v' = false) by now destruct Hfb' as (? & ? & _ & ? & _).
  pose proof (first_best_in_split_top _ _ _ _ (better_of_asym higher_better) Hfb
                l' v' (Permutation_in _ (Permutation_sym Hperm) Hin')
                Hsplit Hnan') as H1.
  pose proof (first_best_in_split_top _ _ _ _ (better_of_asym higher_better) Hfb'
                l v (Permutation_in _ Hperm Hin) (eq_sym Hsplit) Hnan) as H2.
  pose proof (better_of_total higher_better v v' Hnan Hnan' H2 H1) as Heq.
  destruct (label_eqb l' l) eqn:E; [now apply label_eqb_eq|].
  exfalso.
  rewrite (Hties l v l' v' Hin (Permutation_in _ (Permutation_sym Hperm) Hin')
             (eq_sym Hsplit)) in Heq; [discriminate|].
  intros ->. assert (label_eqb l' l' = true) by now apply label_eqb_eq. congruence.
Qed.

Lemma get_best_index_row_order_witness :
  Permutation sharpe_nan_free (rev sharpe_nan_free) /\
  ScoreTable sharpe_nan_free /\ all_splits_valid sharpe_nan_free /\
  no_ties sharpe_nan_free /\
  get_best_index (rev sharpe_nan_free) true = get_best_index sharpe_nan_free true.
Proof.
  assert (P : Permutation sharpe_nan_free (rev sharpe_nan_free))
    by apply Permutation_rev.
  assert (T : ScoreTable sharpe_nan_free).
  { unfold ScoreTable. cbn. repeat constructor; cbn; intuition discriminate. }
  assert (V : all_splits_valid sharpe_nan_free).
  { apply all_splits_validb_spec. reflexivity. }
  assert (N : no_ties sharpe_nan_free).
  { intros l v l' v' H H' Hs Hne. cbn in H, H'.
    repeat (destruct H as [H|H]; [injection H as <- <-|]); try destruct H;
    repeat (destruct H' as [H'|H']; [injection H' as <- <-|]); try destruct H';
      try reflexivity; try discriminate; exfalso; now apply Hne. }
  repeat (split; [assumption|]).
  exact (get_best_index_row_order _ _ true P T V N).
Defined.

(** *** Minimising and maximising *)

Lemma SFcompare_opp a b : SFcompare (SFopp a) (SFopp b) = SFcompare b a.
Proof.
  destruct a as [sa|sa| |sa ma ea], b as [sb|sb| |sb mb eb]; cbn;
    try destruct sa; try destruct sb; cbn; try reflexivity.
  - rewrite (Z.compare_antisym eb ea).
    destruct (eb ?= ea); cbn; try reflexivity.
    now rewrite (Pos.compare_cont_antisym mb ma Eq).
  - rewrite (Z.compare_antisym eb ea).
    destruct (eb ?= ea); cbn; try reflexivity.
    now rewrite (Pos.compare_cont_antisym ma mb Eq).
Qed.

Lemma is_nan_opp a : is_nan (SFopp a) = is_nan a.
Proof. now destruct a. Qed.

Lemma better_of_opp hb a b :
  better_of hb (SFopp a) (SFopp b) = better_of (negb hb) a b.
Proof.
  destruct hb; cbn; unfold gt, lt, SFltb; now rewrite SFcompare_opp.
Qed.

Lemma arg_step_neg hb acc r :
  arg_step (better_of hb) (option_map neg_row acc) (neg_row r)
  = option_map neg_row (arg_step (better_of (negb hb)) acc r).
Proof.
  unfold arg_step. cbn [neg_row snd]. rewrite is_nan_opp.
  destruct (is_nan (snd r)); [reflexivity|].
  destruct acc as [[l v]|]; cbn; [|reflexivity].
  rewrite better_of_opp. now destruct (better_of (negb hb) (snd r) v).
Qed.

Lemma arg_scan_neg hb g :
  arg_scan (better_of hb) (neg g)
  = option_map neg_row (arg_scan (better_of (negb hb)) g).
Proof.
  unfold arg_scan, neg.
  change (@None (label * score)) with (option_map neg_row None) at 1.
  generalize (@None (label * score)) as acc.
  induction g as [|r g IH]; intros acc; cbn [map fold_left]; [reflexivity|].
  now rewrite arg_step_neg, IH.
Qed.

Lemma filter_neg (f : label -> bool) s :
  filter (fun r => f (fst r)) (neg s) = neg (filter (fun r => f (fst r)) s).
Proof.
  unfold neg. induction s as [|r s IH]; cbn; [reflexivity|].
  destruct (f (fst r)); cbn; now rewrite IH.
Qed.

Lemma group_keys_neg s : group_keys (neg s) = group_keys s.
Proof. unfold group_keys, neg. now rewrite map_map. Qed.

Lemma winner_neg hb s k :
  winner (better_of hb) (neg s) k = winner (better_of (negb hb)) s k.
Proof.
  unfold winner, group.
  rewrite (filter_neg (fun l => split_idx l =? k)), arg_scan_neg.
  now destruct (arg_scan (better_of (negb hb)) _) as [[l v]|].
Qed.

Lemma index_neg s : index (neg s) = index s.
Proof. unfold index, neg. now rewrite map_map. Qed.

Lemma getitem_labels_neg s keys :
  getitem_labels (neg s) keys = (best <- getitem_labels s keys ;; Ok (neg best)).
Proof.
  induction keys as [|[l|] keys IH]; cbn [getitem_labels]; try reflexivity.
  unfold loc. rewrite (filter_neg (fun l' => label_eqb l' l)).
  destruct (filter (fun r => label_eqb (fst r) l) s) as [|r rows]; [reflexivity|].
  cbn [neg map]. rewrite !bind_Ok, IH.
  destruct (getitem_labels s keys) as [e|more]; [reflexivity|].
  cbn. unfold neg. now rewrite map_app.
Qed.

Lemma getitem_neg s keys :
  getitem (neg s) keys = (best <- getitem s keys ;; Ok (neg best)).
Proof.
  unfold getitem. destruct keys as [|key keys]; [reflexivity|].
  destruct (forallb isna (key :: keys)); [reflexivity|].
  apply getitem_labels_neg.
Qed.

(** Selecting the lowest scores is selecting the highest of the negated
    table, and the other way round: same success or failure, same index. *)
Theorem get_best_index_negated (s : Series) (higher_better : bool) :
  get_best_index (neg s) higher_better = get_best_index s (negb higher_better).
Proof.
  rewrite !get_best_index_eq, group_keys_neg.
  rewrite (map_ext _ _ (winner_neg higher_better s)), getitem_neg.
  destruct (getitem s _) as [e|best]; [reflexivity|].
  cbn. now rewrite index_neg.
Qed.

End SelectionExtras.

(** ** More on the grid and the in-sample table *)

Module EngineExtras.
Import Scenarios.
Import Score ScoreFacts Pandas BestSelector ParameterGrid RollingSplitter WalkForward Cells.
Import ScanFacts TableFacts SelectionFacts GridFacts ValidationFacts EngineFacts.
Import OrderFacts SelectionExtras.

Lemma pairs_In (l : list Z) (a b : Z) :
  In (a, b) (pairs l) <-> exists x y z, l = x ++ a :: y ++ b :: z.
Proof.
  induction l as [|c t IH]; cbn [pairs].
  - split; [intros []|]. intros ([|c x] & y & z & E); discriminate.
  - rewrite in_app_iff, in_map_iff, IH. split.
    + intros [(b' & E & Hb)|(x & y & z & ->)].
      * injection E as <- <-. apply in_split in Hb as (y0 & z0 & ->).
        exists [], y0, z0. reflexivity.
      * exists (c :: x), y, z. reflexivity.
    + intros ([|c' x] & y & z & E); cbn in E; injection E as <- ->.
      * left. exists b. split; [reflexivity|]. apply in_elt.
      * right. eauto.
Qed.

(** Whatever the candidates, repeated or unsorted, the grid of [run_combs]
    with [r=2] holds [k (k - 1) / 2] pairs for [k] candidates, exactly the
    pairs made of a candidate and one listed after it; fewer than two
    candidates give the empty grid. *)
Theorem run_combs_windows_by_positions (ws : list Z) :
  Z.of_nat (length (run_combs_windows ws))
    = Z.of_nat (length ws) * (Z.of_nat (length ws) - 1) / 2 /\
  (forall a b, In (a, b) (run_combs_windows ws)
               <-> exists x y z, ws = x ++ a :: y ++ b :: z) /\
  (run_combs_windows ws = [] <-> (length ws < 2)%nat).
Proof.
  rewrite run_combs_windows_pairs. pose proof (pairs_length ws) as Hlen.
  split; [|split].
  - rewrite <- Hlen. rewrite Z.mul_comm, Z.div_mul; lia.
  - apply pairs_In.
  - split.
    + intros E. rewrite E in Hlen. cbn in Hlen. nia.
    + intros Hk. destruct (pairs ws) as [|p g]; [reflexivity|]. cbn in Hlen. nia.
Qed.

Lemma getitem_sub s keys best :
  getitem s keys = Ok best -> forall r, In r best -> In r s.
Proof.
  intros E. apply getitem_ok in E. revert best E.
  induction keys as [|[l|] keys IH]; cbn [getitem_labels]; intros best E r Hr.
  - injection E as <-. destruct Hr.
  - destruct (loc s l) as [e|rows] eqn:El; [discriminate|]. rewrite bind_Ok in E.
    destruct (getitem_labels s keys) as [e|more]; [discriminate|]. rewrite bind_Ok in E.
    injection E as <-. apply in_app_or in Hr as [Hr|Hr]; [|now apply (IH more)].
    destruct (loc_ok _ _ _ El) as [-> _]. now apply filter_In in Hr as [Hr _].
  - discriminate.
Qed.

Lemma get_best_index_sub s hb idx :
  get_best_index s hb = Ok idx -> forall l, In l idx -> In l (index s).
Proof.
  rewrite get_best_index_eq. intros E l Hl.
  destruct (getitem s _) as [e|best] eqn:Eg; [discriminate|].
  rewrite bind_Ok in E. injection E as <-.
  unfold index in *. apply in_map_iff in Hl as (r & <- & Hr).
  apply in_map. now apply (getitem_sub _ _ _ Eg).
Qed.

Lemma in_best_window_pairs_map idx : in_best_window_pairs idx = map windows_of idx.
Proof.
  unfold in_best_window_pairs, get_best_params, get_level_values.
  induction idx as [|l idx IH]; cbn; [reflexivity|]. now rewrite IH.
Qed.

Lemma flat_map_length_const {A B : Type} (f : A -> list B) (n : nat) (l : list A) :
  (forall x, length (f x) = n) -> length (flat_map f l) = (length l * n)%nat.
Proof.
  intros Hf. induction l as [|x l IH]; cbn; [reflexivity|].
  now rewrite length_app, Hf, IH.
Qed.

Section InSample.

Variable MA_run : list score -> Z -> list score.
Variable ma_crossed_above : list score -> list score -> list bool.
Variable ma_crossed_below : list score -> list score -> list bool.
Variable from_signals_sharpe_ratio : list score -> list bool -> list bool -> score.

Lemma simulate_all_params_length price ws :
  length (simulate_all_params MA_run ma_crossed_above ma_crossed_below
            from_signals_sharpe_ratio price ws)
  = (length (run_combs_windows ws) * length price)%nat.
Proof.
  unfold simulate_all_params. apply flat_map_length_const.
  intros fs. now rewrite length_map.
Qed.

End InSample.



Lemma grid_nodup ws : StronglySorted Z.lt ws -> NoDup (run_combs_windows ws).
Proof.
  intros Hws. apply (StronglySorted_NoDup pair_lt).
  - intros [a b] [H|[_ H]]; cbn in H; lia.
  - rewrite run_combs_windows_pairs. now apply pairs_sorted.
Qed.

(** With at least two candidate windows (below that the unpacking of the
    two indicators of [run_combs] raises [ValueError] and no table is
    returned), the in-sample table has one row per pair of the grid and
    column of the frame, [k (k - 1) / 2] times the number of splits for [k]
    candidate windows; with increasing windows and distinctly labelled
    columns no (fast, slow, split) key occurs twice in it. *)
Theorem simulate_all_params_shape
    (MA_run : list score -> Z -> list score)
    (ma_crossed_above ma_crossed_below : list score -> list score -> list bool)
    (from_signals_sharpe_ratio : list score -> list bool -> list bool -> score)
    (price : DataFrame) (ws : list Z) :
  (2 <= length ws)%nat ->
  Z.of_nat (length (simulate_all_params MA_run ma_crossed_above ma_crossed_below
                      from_signals_sharpe_ratio price ws))
    = Z.of_nat (length ws) * (Z.of_nat (length ws) - 1) / 2 * Z.of_nat (length price) /\
  (StronglySorted Z.lt ws -> NoDup (map fst price) ->
   ScoreTable (simulate_all_params MA_run ma_crossed_above ma_crossed_below
                 from_signals_sharpe_ratio price ws)).
Proof.
  intros _. split.
  - rewrite simulate_all_params_length, Nat2Z.inj_mul. f_equal.
    rewrite run_combs_windows_pairs, <- pairs_length.
    rewrite Z.mul_comm, Z.div_mul; lia.
  - intros Hws Hcols. apply simulate_all_params_table; [|assumption].
    now apply grid_nodup.
Qed.

Lemma simulate_all_params_shape_witness :
  (2 <= length [10; 20; 30])%nat /\
  StronglySorted Z.lt [10; 20; 30] /\
  NoDup (map fst (set_frame demo_price demo_splits 0)) /\
  Z.of_nat (length (simulate_all_params stub_MA_run stub_crossed stub_crossed stub_sharpe
                      (set_frame demo_price demo_splits 0) [10; 20; 30])) = 6 /\
  ScoreTable (simulate_all_params stub_MA_run stub_crossed stub_crossed stub_sharpe
                (set_frame demo_price demo_splits 0) [10; 20; 30]).
Proof.
  assert (Hk : (2 <= length [10; 20; 30])%nat) by (cbn; lia).
  assert (Hws : StronglySorted Z.lt [10; 20; 30]).
  { repeat constructor; lia. }
  assert (Hcols : NoDup (map fst (set_frame demo_price demo_splits 0))).
  { cbn. repeat constructor; cbn; intuition discriminate. }
  split; [exact Hk|]. split; [exact Hws|]. split; [exact Hcols|].
  destruct (simulate_all_params_shape stub_MA_run stub_crossed stub_crossed
              stub_sharpe (set_frame demo_price demo_splits 0) [10; 20; 30] Hk)
    as [Hlen Htable].
  split; [exact Hlen|exact (Htable Hws Hcols)].
Defined.



(** Selection never leaves the grid: every window pair taken from the
    index that [get_best_index] returns on the in-sample table is a pair of
    the grid, hence has its fast window below its slow one when the
    candidates are increasing; there is one pair per entry of the index. *)
Theorem in_best_window_pairs_in_grid
    (MA_run : list score -> Z -> list score)
    (ma_crossed_above ma_crossed_below : list score -> list score -> list bool)
    (from_signals_sharpe_ratio : list score -> list bool -> list bool -> score)
    (price : DataFrame) (ws : list Z) (higher_better : bool) (idx : list label) :
  get_best_index
    (simulate_all_params MA_run ma_crossed_above ma_crossed_below
       from_signals_sharpe_ratio price ws) higher_better = Ok idx ->
  length (in_best_window_pairs idx) = length idx /\
  forall p, In p (in_best_window_pairs idx) ->
    In p (run_combs_windows ws) /\
    (StronglySorted Z.lt ws -> fst p < snd p).
Proof.
  intros Hget. rewrite in_best_window_pairs_map. split; [apply length_map|].
  intros p Hp. apply in_map_iff in Hp as (l & <- & Hl).
  pose proof (get_best_index_sub _ _ _ Hget l Hl) as Hin.
  unfold index in Hin. apply in_map_iff in Hin as (r & <- & Hr).
  destruct (simulate_all_params_In _ _ _ _ _ _ _ Hr) as [Hgrid _].
  split; [assumption|]. intros Hws.
  rewrite run_combs_windows_pairs in Hgrid.
  destruct (windows_of (fst r)) as [a b].
  apply (pairs_In_sorted ws Hws) in Hgrid. cbn. tauto.
Qed.

Lemma in_best_window_pairs_in_grid_witness :
  get_best_index
    (simulate_all_params stub_MA_run stub_crossed stub_crossed stub_sharpe
       (set_frame demo_price demo_splits 0) [10; 20; 30]) true
  = Ok [mkLabel 10 20 0; mkLabel 10 20 1] /\
  forall p, In p (in_best_window_pairs [mkLabel 10 20 0; mkLabel 10 20 1]) ->
    In p (run_combs_windows [10; 20; 30]).
Proof.
  assert (Hget : get_best_index
            (simulate_all_params stub_MA_run stub_crossed stub_crossed stub_sharpe
               (set_frame demo_price demo_splits 0) [10; 20; 30]) true
          = Ok [mkLabel 10 20 0; mkLabel 10 20 1]) by reflexivity.
  split; [exact Hget|].
  intros p Hp.
  exact (proj1 (proj2 (in_best_window_pairs_in_grid stub_MA_run stub_crossed
                         stub_crossed stub_sharpe
                         (set_frame demo_price demo_splits 0) [10; 20; 30] true
                         _ Hget) p Hp)).
Defined.

Lemma arange_sorted lo hi : StronglySorted Z.lt (arange lo hi).
Proof.
  unfold arange. generalize (Z.to_nat (hi - lo)) as n. generalize 0%nat as a.
  intros a n. revert a. induction n as [|n IH]; intros a; cbn; constructor; [apply IH|].
  apply Forall_forall. intros x Hx. apply in_map_iff in Hx as (i & <- & Hi).
  apply in_seq in Hi. lia.
Qed.

(** A grid built on [np.arange(lo, hi)], as the notebook's is, holds
    exactly the pairs [lo <= fast < slow < hi], in lexicographic order,
    [(hi - lo) (hi - lo - 1) / 2] of them. *)
Theorem run_combs_windows_arange (lo hi : Z) :
  lo <= hi ->
  Z.of_nat (length (run_combs_windows (arange lo hi)))
    = (hi - lo) * (hi - lo - 1) / 2 /\
  StronglySorted pair_lt (run_combs_windows (arange lo hi)) /\
  forall fast slow,
    In (fast, slow) (run_combs_windows (arange lo hi))
    <-> lo <= fast /\ fast < slow /\ slow < hi.
Proof.
  intros Hle. rewrite run_combs_windows_pairs.
  pose proof (arange_sorted lo hi) as Hs. split; [|split].
  - pose proof (pairs_length (arange lo hi)) as Hlen.
    rewrite SplitterFacts.arange_length in Hlen.
    replace (Z.of_nat (Z.to_nat (hi - lo))) with (hi - lo) in Hlen by lia.
    rewrite <- Hlen. rewrite Z.mul_comm, Z.div_mul; lia.
  - now apply pairs_sorted.
  - intros fast slow. rewrite (pairs_In_sorted _ Hs), !SplitterFacts.arange_In. lia.
Qed.

Lemma run_combs_windows_arange_witness :
  10 <= 50 /\
  Z.of_nat (length (run_combs_windows windows)) = 780 /\
  forall fast slow,
    In (fast, slow) (run_combs_windows windows) <-> 10 <= fast /\ fast < slow /\ slow < 50.
Proof.
  assert (H : 10 <= 50) by lia.
  split; [exact H|].
  destruct (run_combs_windows_arange 10 50 H) as (Hlen & _ & Hin).
  split; [exact Hlen|exact Hin].
Defined.

End EngineExtras.

(** ** More on the chain of cells *)

Module PipelineExtras.
Import Scenarios.
Import Score Pandas BestSelector ParameterGrid RollingSplitter WalkForward Cells.
Import TableFacts SelectionFacts EngineFacts.

(** One split without a usable in-sample score stops the whole run: the
    chain of cells from the split to the two score vectors fails in the
    selection, with the [KeyError] or the [ValueError] of the table
    library, and no vector is produced for the other splits either. *)
Theorem walk_forward_nan_split
    (MA_run : list score -> Z -> list score)
    (ma_crossed_above ma_crossed_below : list score -> list score -> list bool)
    (from_signals_sharpe_ratio : list score -> list bool -> list bool -> score)
    (price : PriceSeries) (n : option Z) (window_len : Z) (set_lens ws : list Z)
    (in_price out_price : DataFrame) (k : Z) :
  in_out_prices price n window_len set_lens false = Ok (in_price, out_price) ->
  nan_split
    (simulate_all_params MA_run ma_crossed_above ma_crossed_below
       from_signals_sharpe_ratio in_price ws) k ->
  exists e,
    walk_forward MA_run ma_crossed_above ma_crossed_below from_signals_sharpe_ratio
      price n window_len set_lens ws = Raise e /\
    (e = KeyError \/ e = ValueError).
Proof.
  intros Hio Hnan. unfold walk_forward. rewrite Hio, bind_Ok. cbv beta iota.
  destruct (get_best_index_nan true _ k Hnan) as (e & -> & He).
  exists e. split; [reflexivity|assumption].
Qed.

Lemma walk_forward_nan_split_witness :
  in_out_prices demo_price_gap (Some 2) 5 [1] false
    = Ok (set_frame demo_price_gap demo_splits 0, set_frame demo_price_gap demo_splits 1) /\
  nan_split
    (simulate_all_params stub_MA_run stub_crossed stub_crossed stub_sharpe
       (set_frame demo_price_gap demo_splits 0) [10; 20; 30]) 0 /\
  exists e,
    walk_forward stub_MA_run stub_crossed stub_crossed stub_sharpe
      demo_price_gap (Some 2) 5 [1] [10; 20; 30] = Raise e /\
    (e = KeyError \/ e = ValueError).
Proof.
  assert (Hio : in_out_prices demo_price_gap (Some 2) 5 [1] false
                = Ok (set_frame demo_price_gap demo_splits 0,
                      set_frame demo_price_gap demo_splits 1)) by reflexivity.
  assert (Hnan : nan_split
            (simulate_all_params stub_MA_run stub_crossed stub_crossed stub_sharpe
               (set_frame demo_price_gap demo_splits 0) [10; 20; 30]) 0).
  { split.
    - exists (mkLabel 10 20 0, S754_nan). split; [left|]; reflexivity.
    - intros r Hr Hk. cbn in Hr.
      repeat (destruct Hr as [<-|Hr]; [cbn in *; first [reflexivity|discriminate]|]).
      destruct Hr. }
  split; [exact Hio|]. split; [exact Hnan|].
  exact (walk_forward_nan_split stub_MA_run stub_crossed stub_crossed stub_sharpe
           demo_price_gap (Some 2) 5 [1] [10; 20; 30] _ _ 0 Hio Hnan).
Defined.

Lemma walk_forward_vectors_witness :
  let in_price := set_frame demo_price demo_splits 0 in
  let out_price := set_frame demo_price demo_splits 1 in
  in_out_prices demo_price (Some 2) 5 [1] false = Ok (in_price, out_price) /\
  StronglySorted Z.lt [10; 20; 30] /\ (2 <= length [10; 20; 30])%nat /\
  all_splits_valid
    (simulate_all_params stub_MA_run stub_crossed stub_crossed stub_sharpe
       in_price [10; 20; 30]) /\
  exists v,
    walk_forward stub_MA_run stub_crossed stub_crossed stub_sharpe
      demo_price (Some 2) 5 [1] [10; 20; 30] = Ok v /\
    length (in_sample_best v) = length in_price /\
    length (out_sample_test v) = length in_price.
Proof.
  intros in_price out_price.
  assert (Hio : in_out_prices demo_price (Some 2) 5 [1] false = Ok (in_price, out_price))
    by reflexivity.
  assert (Hws : StronglySorted Z.lt [10; 20; 30]) by (repeat constructor; lia).
  assert (Hk : (2 <= length [10; 20; 30])%nat) by (cbn; lia).
  assert (V : all_splits_valid
            (simulate_all_params stub_MA_run stub_crossed stub_crossed stub_sharpe
               in_price [10; 20; 30])).
  { apply all_splits_validb_spec. reflexivity. }
  repeat (split; [assumption|]).
  exact (PipelineFacts.walk_forward_vectors stub_MA_run stub_crossed stub_crossed
           stub_sharpe demo_price (Some 2) 5 [1] [10; 20; 30] in_price out_price
           Hio Hws Hk V).
Defined.

End PipelineExtras.
